(** * SimSIMD: binary (Hamming, Jaccard) and int8 AVX2 similarity kernels

    A shallow embedding of [include/simsimd/binary.h] and
    [include/simsimd/x86_avx2_i8.h].

    - Operand vectors are [list byte]: the bytes readable from a pointer.
      [a + i] is the list with its first [i] bytes dropped, and a read past the
      end of the list has no result ([None]).
    - [simsimd_size_t] values are [N]; C [int] values are [Z], with the 32-bit
      wrap-around written out by [i32].
    - Vector registers that the code treats lane by lane (NEON, SVE) are lists
      of lanes; x86 registers, which the code reinterprets at several lane
      widths, are one [Z] holding all the bits, split and joined by
      [unpack] and [pack].
    - [simsimd_f32_t] is IEEE binary32, from the Standard Library's
      [SpecFloat] at precision 24 and maximal exponent 128. *)

From Stdlib Require Import ZArith NArith List Bool Lia.
From Stdlib Require Import Strings.Byte Floats.SpecFloat.
Import ListNotations.

Local Open Scope Z_scope.

(** ** Scalar types and conversions *)

(** The error monad of a read that may fall outside the operand. *)
Definition bind {A B : Type} (m : option A) (k : A -> option B) : option B :=
  match m with
  | Some x => k x
  | None => None
  end.

Notation "x <- m ;; k" := (bind m (fun x => k))
  (at level 61, m at next level, right associativity).

(** Value of an [unsigned char]. *)
Definition u8 (x : byte) : Z := Z.of_N (Byte.to_N x).

(** Value of a [signed char] with the same bits. *)
Definition s8 (x : byte) : Z := if u8 x <? 128 then u8 x else u8 x - 256.

(** Two's complement reading of the low 8 bits of a lane. *)
Definition sext8 (z : Z) : Z := if z mod 256 <? 128 then z mod 256 else z mod 256 - 256.

(** Conversion of an [int] to [simsimd_b8_t] (unsigned char). *)
Definition b8_of_int (z : Z) : byte :=
  match Byte.of_N (Z.to_N (z mod 256)) with
  | Some x => x
  | None => x00
  end.

(** Conversion to [simsimd_i32_t] / [int]: two's complement wrap-around. *)
Definition i32 (z : Z) : Z := (z + 2 ^ 31) mod 2 ^ 32 - 2 ^ 31.

(** Conversion of a 64-bit integer to [simsimd_size_t]. *)
Definition u64 (z : Z) : Z := z mod 2 ^ 64.

(** Conversion to [unsigned int]. *)
Definition u32 (n : N) : N := (n mod 2 ^ 32)%N.

(** Arithmetic on [simsimd_size_t] wraps at 64 bits. *)
Definition size_t (n : N) : N := (n mod 2 ^ 64)%N.

(** [simsimd_f32_t]. *)
Definition f32 : Type := spec_float.
Definition f32_of_int (z : Z) : f32 := binary_normalize 24 128 z 0 false.
Definition f32_sub : f32 -> f32 -> f32 := SFsub 24 128.
Definition f32_mul : f32 -> f32 -> f32 := SFmul 24 128.
Definition f32_div : f32 -> f32 -> f32 := SFdiv 24 128.

(** ** Reading operands *)

(** [p[i]] *)
Definition load (p : list byte) (i : N) : option Z :=
  option_map u8 (nth_error p (N.to_nat i)).

(** [k] consecutive bytes at [p + i], all of which must be readable. *)
Definition load_bytes (p : list byte) (i : N) (k : nat) : option (list Z) :=
  let s := firstn k (skipn (N.to_nat i) p) in
  if Nat.eqb (length s) k then Some (map u8 s) else None.

(** Lane-wise application of a binary operation. *)
Fixpoint zip_with {A B C : Type} (f : A -> B -> C) (x : list A) (y : list B) : list C :=
  match x, y with
  | u :: x', v :: y' => f u v :: zip_with f x' y'
  | _, _ => []
  end.

Definition sum (l : list Z) : Z := fold_right Z.add 0 l.

(** ** Bit counts *)

(** Number of set bits among the low [w] bits of [v]: what a hardware
    population count instruction returns for a [w]-bit lane. *)
Fixpoint popcount (w : nat) (v : Z) : Z :=
  match w with
  | O => 0
  | S w' => Z.b2z (Z.odd v) + popcount w' (Z.div2 v)
  end.

(** ** x86 registers *)

(** Little-endian join of lanes of [w] bits into one register value. *)
Fixpoint pack (w : Z) (lanes : list Z) : Z :=
  match lanes with
  | [] => 0
  | x :: rest => x mod 2 ^ w + 2 ^ w * pack w rest
  end.

(** The first [count] lanes of [w] bits of a register value. *)
Fixpoint unpack (w : Z) (count : nat) (v : Z) : list Z :=
  match count with
  | O => []
  | S count' => v mod 2 ^ w :: unpack w count' (v / 2 ^ w)
  end.

Module Binary.

Definition lookup_table : list Z :=
  [ 0; 1; 1; 2; 1; 2; 2; 3; 1; 2; 2; 3; 2; 3; 3; 4; 1; 2; 2; 3; 2; 3; 3; 4; 2; 3; 3; 4; 3; 4; 4; 5;
    1; 2; 2; 3; 2; 3; 3; 4; 2; 3; 3; 4; 3; 4; 4; 5; 2; 3; 3; 4; 3; 4; 4; 5; 3; 4; 4; 5; 4; 5; 5; 6;
    1; 2; 2; 3; 2; 3; 3; 4; 2; 3; 3; 4; 3; 4; 4; 5; 2; 3; 3; 4; 3; 4; 4; 5; 3; 4; 4; 5; 4; 5; 5; 6;
    2; 3; 3; 4; 3; 4; 4; 5; 3; 4; 4; 5; 4; 5; 5; 6; 3; 4; 4; 5; 4; 5; 5; 6; 4; 5; 5; 6; 5; 6; 6; 7;
    1; 2; 2; 3; 2; 3; 3; 4; 2; 3; 3; 4; 3; 4; 4; 5; 2; 3; 3; 4; 3; 4; 4; 5; 3; 4; 4; 5; 4; 5; 5; 6;
    2; 3; 3; 4; 3; 4; 4; 5; 3; 4; 4; 5; 4; 5; 5; 6; 3; 4; 4; 5; 4; 5; 5; 6; 4; 5; 5; 6; 5; 6; 6; 7;
    2; 3; 3; 4; 3; 4; 4; 5; 3; 4; 4; 5; 4; 5; 5; 6; 3; 4; 4; 5; 4; 5; 5; 6; 4; 5; 5; 6; 5; 6; 6; 7;
    3; 4; 4; 5; 4; 5; 5; 6; 4; 5; 5; 6; 5; 6; 6; 7; 4; 5; 5; 6; 5; 6; 6; 7; 5; 6; 6; 7; 6; 7; 7; 8 ].

(** [simsimd_popcount_b8]: [lookup_table[x]]. *)
Definition simsimd_popcount_b8 (x : byte) : Z :=
  nth (N.to_nat (Byte.to_N x)) lookup_table 0.

(** The closing expression of every Jaccard kernel:
    [(union_ != 0) ? 1 - (simsimd_f32_t)intersection / (simsimd_f32_t)union_ : 0]. *)
Definition jaccard_result (intersection union_ : Z) : f32 :=
  if negb (union_ =? 0)
  then f32_sub (f32_of_int 1) (f32_div (f32_of_int intersection) (f32_of_int union_))
  else f32_of_int 0.

(** *** Serial kernels *)

(** [for (i = 0; i != n_words; ++i) differences += popcount(a[i] ^ b[i]);]
    entered at index [i]. The index stays below [n_words], so [++i] cannot
    wrap. *)
Fixpoint serial_hamming_loop (fuel : nat) (a b : list byte) (n_words i : N)
    (differences : Z) : option Z :=
  if (i =? n_words)%N then Some differences
  else
    match fuel with
    | O => None
    | S fuel' =>
        ai <- load a i ;;
        bi <- load b i ;;
        serial_hamming_loop fuel' a b n_words (N.succ i)
          (i32 (differences + simsimd_popcount_b8 (b8_of_int (Z.lxor ai bi))))
    end.

Definition simsimd_serial_b8_hamming (a b : list byte) (n_words : N) : option f32 :=
  differences <- serial_hamming_loop (N.to_nat n_words) a b n_words 0%N 0 ;;
  Some (f32_of_int differences).

Fixpoint serial_jaccard_loop (fuel : nat) (a b : list byte) (n_words i : N)
    (intersection union_ : Z) : option (Z * Z) :=
  if (i =? n_words)%N then Some (intersection, union_)
  else
    match fuel with
    | O => None
    | S fuel' =>
        ai <- load a i ;;
        bi <- load b i ;;
        serial_jaccard_loop fuel' a b n_words (N.succ i)
          (i32 (intersection + simsimd_popcount_b8 (b8_of_int (Z.land ai bi))))
          (i32 (union_ + simsimd_popcount_b8 (b8_of_int (Z.lor ai bi))))
    end.

Definition simsimd_serial_b8_jaccard (a b : list byte) (n_words : N) : option f32 :=
  r <- serial_jaccard_loop (N.to_nat n_words) a b n_words 0%N 0 0 ;;
  Some (jaccard_result (fst r) (snd r)).

(** *** NEON kernels: [uint8x16_t] is a list of 16 lanes *)

Definition vld1q_u8 (p : list byte) (i : N) : option (list Z) := load_bytes p i 16.
Definition veorq_u8 : list Z -> list Z -> list Z := zip_with Z.lxor.
Definition vandq_u8 : list Z -> list Z -> list Z := zip_with Z.land.
Definition vorrq_u8 : list Z -> list Z -> list Z := zip_with Z.lor.
Definition vcntq_u8 : list Z -> list Z := map (popcount 8).
(** Sum across the vector, returned as [uint8_t]. *)
Definition vaddvq_u8 (v : list Z) : Z := sum v mod 256.

(** [for (; i + 16 <= n_words; i += 16) ...], then the tail, which is the
    serial loop entered at the index the chunks stopped at. *)
Fixpoint neon_hamming_loop (fuel : nat) (a b : list byte) (n_words i : N)
    (differences : Z) : option Z :=
  if (size_t (i + 16) <=? n_words)%N then
    match fuel with
    | O => None
    | S fuel' =>
        a_first <- vld1q_u8 a i ;;
        b_first <- vld1q_u8 b i ;;
        neon_hamming_loop fuel' a b n_words (size_t (i + 16))
          (i32 (differences + vaddvq_u8 (vcntq_u8 (veorq_u8 a_first b_first))))
    end
  else serial_hamming_loop (N.to_nat n_words) a b n_words i differences.

Definition simsimd_neon_b8_hamming (a b : list byte) (n_words : N) : option f32 :=
  differences <- neon_hamming_loop (N.to_nat (n_words / 16)) a b n_words 0%N 0 ;;
  Some (f32_of_int differences).

Fixpoint neon_jaccard_loop (fuel : nat) (a b : list byte) (n_words i : N)
    (intersection union_ : Z) : option (Z * Z) :=
  if (size_t (i + 16) <=? n_words)%N then
    match fuel with
    | O => None
    | S fuel' =>
        a_first <- vld1q_u8 a i ;;
        b_first <- vld1q_u8 b i ;;
        neon_jaccard_loop fuel' a b n_words (size_t (i + 16))
          (i32 (intersection + vaddvq_u8 (vcntq_u8 (vandq_u8 a_first b_first))))
          (i32 (union_ + vaddvq_u8 (vcntq_u8 (vorrq_u8 a_first b_first))))
    end
  else serial_jaccard_loop (N.to_nat n_words) a b n_words i intersection union_.

Definition simsimd_neon_b8_jaccard (a b : list byte) (n_words : N) : option f32 :=
  r <- neon_jaccard_loop (N.to_nat (n_words / 16)) a b n_words 0%N 0 0 ;;
  Some (jaccard_result (fst r) (snd r)).

(** *** SVE kernels: [svuint8_t] is a list of [svcntb()] lanes *)

Section SVE.

(** [svcntb()]: the number of bytes of a vector register, fixed by the
    hardware (16 to 256). *)
Variable svcntb : N.

(** [svwhilelt_b8] on [unsigned int] operands: lane [k] is active while
    [x + k < y], the comparison made without wrap-around. *)
Fixpoint whilelt (lanes : nat) (x y : N) : list bool :=
  match lanes with
  | O => []
  | S lanes' => (x <? y)%N :: whilelt lanes' (N.succ x) y
  end.

Definition svwhilelt_b8 (x y : N) : list bool := whilelt (N.to_nat svcntb) x y.

(** [svld1_u8 (pg, p)]: active lanes read their byte, inactive lanes are
    zero and read nothing. *)
Fixpoint svld1_lanes (pg : list bool) (p : list byte) : option (list Z) :=
  match pg with
  | [] => Some []
  | active :: pg' =>
      x <- (if active then option_map u8 (hd_error p) else Some 0) ;;
      xs <- svld1_lanes pg' (tl p) ;;
      Some (x :: xs)
  end.

Definition svld1_u8 (pg : list bool) (p : list byte) (i : N) : option (list Z) :=
  svld1_lanes pg (skipn (N.to_nat i) p).

(** The operations below are all called with the [svptrue_b8()] predicate. *)
Definition sveor_u8_m : list Z -> list Z -> list Z := zip_with Z.lxor.
Definition svand_u8_m : list Z -> list Z -> list Z := zip_with Z.land.
Definition svorr_u8_m : list Z -> list Z -> list Z := zip_with Z.lor.
Definition svcnt_u8_x : list Z -> list Z := map (popcount 8).
(** Sum across the vector, returned as [uint64_t]. *)
Definition svaddv_u8 (v : list Z) : Z := sum v mod 2 ^ 64.

(** [do { ... i += svcntb(); } while (i < n_words);]
    [differences += svaddv_u8 (...)] adds in 64 bits and stores the low 32
    bits back in the [simsimd_i32_t], which is [i32] of the sum. *)
Fixpoint sve_hamming_loop (fuel : nat) (a b : list byte) (n_words i : N)
    (differences : Z) : option Z :=
  match fuel with
  | O => None
  | S fuel' =>
      let pg_vec := svwhilelt_b8 (u32 i) (u32 n_words) in
      a_vec <- svld1_u8 pg_vec a i ;;
      b_vec <- svld1_u8 pg_vec b i ;;
      let differences :=
        i32 (differences + svaddv_u8 (svcnt_u8_x (sveor_u8_m a_vec b_vec))) in
      let i := size_t (i + svcntb) in
      if (i <? n_words)%N then sve_hamming_loop fuel' a b n_words i differences
      else Some differences
  end.

Definition simsimd_sve_b8_hamming (a b : list byte) (n_words : N) : option f32 :=
  differences <- sve_hamming_loop (S (N.to_nat n_words)) a b n_words 0%N 0 ;;
  Some (f32_of_int differences).

Fixpoint sve_jaccard_loop (fuel : nat) (a b : list byte) (n_words i : N)
    (intersection union_ : Z) : option (Z * Z) :=
  match fuel with
  | O => None
  | S fuel' =>
      let pg_vec := svwhilelt_b8 (u32 i) (u32 n_words) in
      a_vec <- svld1_u8 pg_vec a i ;;
      b_vec <- svld1_u8 pg_vec b i ;;
      let intersection :=
        i32 (intersection + svaddv_u8 (svcnt_u8_x (svand_u8_m a_vec b_vec))) in
      let union_ :=
        i32 (union_ + svaddv_u8 (svcnt_u8_x (svorr_u8_m a_vec b_vec))) in
      let i := size_t (i + svcntb) in
      if (i <? n_words)%N then sve_jaccard_loop fuel' a b n_words i intersection union_
      else Some (intersection, union_)
  end.

Definition simsimd_sve_b8_jaccard (a b : list byte) (n_words : N) : option f32 :=
  r <- sve_jaccard_loop (S (N.to_nat n_words)) a b n_words 0%N 0 0 ;;
  Some (jaccard_result (fst r) (snd r)).

End SVE.

(** *** AVX-512 kernels: [__m512i] is a 512-bit value *)

Definition _mm512_setzero_si512 : Z := 0.

(** [_bzhi_u64 (a, index)]: clear the bits of [a] from position
    [index[7:0]] upwards. *)
Definition _bzhi_u64 (a : Z) (index : N) : Z :=
  let n := Z.of_N (index mod 256) in
  if n <? 64 then a mod 2 ^ n else a.

(** Byte lanes of a masked load: lane [k] is read when bit [k] of the mask is
    set and is zero, without a read, when it is not. *)
Fixpoint maskz_lanes (lanes : nat) (k : Z) (mask : Z) (p : list byte) : option (list Z) :=
  match lanes with
  | O => Some []
  | S lanes' =>
      x <- (if Z.testbit mask k then option_map u8 (hd_error p) else Some 0) ;;
      xs <- maskz_lanes lanes' (k + 1) mask (tl p) ;;
      Some (x :: xs)
  end.

Definition _mm512_maskz_loadu_epi8 (mask : Z) (p : list byte) : option Z :=
  v <- maskz_lanes 64 0 mask p ;; Some (pack 8 v).

Definition _mm512_loadu_epi8 (p : list byte) : option Z :=
  v <- load_bytes p 0 64 ;; Some (pack 8 v).

Definition _mm512_xor_si512 : Z -> Z -> Z := Z.lxor.
Definition _mm512_and_si512 : Z -> Z -> Z := Z.land.
Definition _mm512_or_si512 : Z -> Z -> Z := Z.lor.

Definition _mm512_popcnt_epi64 (v : Z) : Z :=
  pack 64 (map (popcount 64) (unpack 64 8 v)).

Definition _mm512_add_epi64 (x y : Z) : Z :=
  pack 64 (zip_with Z.add (unpack 64 8 x) (unpack 64 8 y)).

(** The sum of the eight lanes; the caller stores it in a [simsimd_size_t]. *)
Definition _mm512_reduce_add_epi64 (v : Z) : Z := sum (unpack 64 8 v).

(** The body from the label [simsimd_avx512_b8_hamming_cycle] to the
    [goto]: one pass per 64 bytes, the last one through a masked load. *)
Fixpoint avx512_hamming_cycle (fuel : nat) (a b : list byte) (n_words : N)
    (differences_vec : Z) : option Z :=
  match fuel with
  | O => None
  | S fuel' =>
      st <- (if (n_words <? 64)%N then
               let mask := _bzhi_u64 0xFFFFFFFFFFFFFFFF n_words in
               a_vec <- _mm512_maskz_loadu_epi8 mask a ;;
               b_vec <- _mm512_maskz_loadu_epi8 mask b ;;
               Some (a_vec, b_vec, a, b, 0%N)
             else
               a_vec <- _mm512_loadu_epi8 a ;;
               b_vec <- _mm512_loadu_epi8 b ;;
               Some (a_vec, b_vec, skipn 64 a, skipn 64 b, (n_words - 64)%N)) ;;
      let '(a_vec, b_vec, a, b, n_words) := st in
      let xor_vec := _mm512_xor_si512 a_vec b_vec in
      let differences_vec :=
        _mm512_add_epi64 differences_vec (_mm512_popcnt_epi64 xor_vec) in
      if negb (n_words =? 0)%N
      then avx512_hamming_cycle fuel' a b n_words differences_vec
      else Some differences_vec
  end.

Definition simsimd_avx512_b8_hamming (a b : list byte) (n_words : N) : option f32 :=
  differences_vec <-
    avx512_hamming_cycle (S (N.to_nat (n_words / 64))) a b n_words _mm512_setzero_si512 ;;
  let differences := u64 (_mm512_reduce_add_epi64 differences_vec) in
  Some (f32_of_int differences).

Fixpoint avx512_jaccard_cycle (fuel : nat) (a b : list byte) (n_words : N)
    (intersection_vec union_vec : Z) : option (Z * Z) :=
  match fuel with
  | O => None
  | S fuel' =>
      st <- (if (n_words <? 64)%N then
               let mask := _bzhi_u64 0xFFFFFFFFFFFFFFFF n_words in
               a_vec <- _mm512_maskz_loadu_epi8 mask a ;;
               b_vec <- _mm512_maskz_loadu_epi8 mask b ;;
               Some (a_vec, b_vec, a, b, 0%N)
             else
               a_vec <- _mm512_loadu_epi8 a ;;
               b_vec <- _mm512_loadu_epi8 b ;;
               Some (a_vec, b_vec, skipn 64 a, skipn 64 b, (n_words - 64)%N)) ;;
      let '(a_vec, b_vec, a, b, n_words) := st in
      let and_vec := _mm512_and_si512 a_vec b_vec in
      let or_vec := _mm512_or_si512 a_vec b_vec in
      let intersection_vec :=
        _mm512_add_epi64 intersection_vec (_mm512_popcnt_epi64 and_vec) in
      let union_vec := _mm512_add_epi64 union_vec (_mm512_popcnt_epi64 or_vec) in
      if negb (n_words =? 0)%N
      then avx512_jaccard_cycle fuel' a b n_words intersection_vec union_vec
      else Some (intersection_vec, union_vec)
  end.

Definition simsimd_avx512_b8_jaccard (a b : list byte) (n_words : N) : option f32 :=
  r <- avx512_jaccard_cycle (S (N.to_nat (n_words / 64))) a b n_words
         _mm512_setzero_si512 _mm512_setzero_si512 ;;
  let intersection := u64 (_mm512_reduce_add_epi64 (fst r)) in
  let union_ := u64 (_mm512_reduce_add_epi64 (snd r)) in
  Some (jaccard_result intersection union_).

End Binary.

(** ** [x86_avx2_i8.h] *)

Module Avx2I8.

(** [a[i]] for [simsimd_i8_t const* a], promoted to [int]. *)
Definition load_i8 (p : list byte) (i : N) : option Z :=
  option_map s8 (nth_error p (N.to_nat i)).

Definition _mm256_setzero_si256 : Z := 0.

(** [_mm256_loadu_si256 ((__m256i const* )(p + i))]: 32 bytes. *)
Definition _mm256_loadu_si256 (p : list byte) (i : N) : option Z :=
  v <- load_bytes p i 32 ;; Some (pack 8 v).

(** Lane-wise 8-bit subtraction; [pack] keeps the low 8 bits of each
    difference. *)
Definition _mm256_sub_epi8 (x y : Z) : Z :=
  pack 8 (zip_with Z.sub (unpack 8 32 x) (unpack 8 32 y)).

Definition saturate16 (z : Z) : Z := Z.max (- 32768) (Z.min 32767 z).

(** Each 16-bit lane takes two adjacent byte pairs: the bytes of the first
    operand read as unsigned, those of the second as signed; the two
    products are added with signed saturation. *)
Fixpoint maddubs_lanes (x y : list Z) : list Z :=
  match x, y with
  | x0 :: x1 :: x', y0 :: y1 :: y' =>
      saturate16 (x0 * sext8 y0 + x1 * sext8 y1) :: maddubs_lanes x' y'
  | _, _ => []
  end.

Definition _mm256_maddubs_epi16 (x y : Z) : Z :=
  pack 16 (maddubs_lanes (unpack 8 32 x) (unpack 8 32 y)).

(** Addition of the eight 32-bit lanes of the two registers. *)
Definition _mm256_add_epi32 (x y : Z) : Z :=
  pack 32 (zip_with Z.add (unpack 32 8 x) (unpack 32 8 y)).

Definition _mm256_extracti128_si256 (v : Z) (imm : nat) : Z :=
  nth imm (unpack 128 2 v) 0.

Definition _mm_add_epi32 (x y : Z) : Z :=
  pack 32 (zip_with Z.add (unpack 32 4 x) (unpack 32 4 y)).

Definition _mm_hadd_epi32 (x y : Z) : Z :=
  match unpack 32 4 x, unpack 32 4 y with
  | [x0; x1; x2; x3], [y0; y1; y2; y3] => pack 32 [x0 + x1; x2 + x3; y0 + y1; y2 + y3]
  | _, _ => 0
  end.

(** The selected 32-bit lane as an [int]. *)
Definition _mm_extract_epi32 (v : Z) (imm : nat) : Z :=
  i32 (nth imm (unpack 32 4 v) 0).

(** The horizontal sum both kernels write out: the two 128-bit halves are
    added, then [_mm_hadd_epi32] is applied twice and lane 0 extracted. *)
Definition horizontal_sum (v : Z) : Z :=
  let low := _mm256_extracti128_si256 v 0 in
  let high := _mm256_extracti128_si256 v 1 in
  let partial := _mm_add_epi32 low high in
  _mm_extract_epi32 (_mm_hadd_epi32 (_mm_hadd_epi32 partial partial) partial) 0.

(** [for (; i + 31 < d; i += 32) ...] of [simsimd_avx2_i8_l2sq]; returns the
    index reached and the vector accumulator. *)
Fixpoint l2sq_chunks (fuel : nat) (a b : list byte) (d i : N) (d2_vec : Z)
    : option (N * Z) :=
  if (size_t (i + 31) <? d)%N then
    match fuel with
    | O => None
    | S fuel' =>
        a_vec <- _mm256_loadu_si256 a i ;;
        b_vec <- _mm256_loadu_si256 b i ;;
        let d_vec := _mm256_sub_epi8 a_vec b_vec in
        let d_vec16 := _mm256_maddubs_epi16 d_vec d_vec in
        l2sq_chunks fuel' a b d (size_t (i + 32)) (_mm256_add_epi32 d2_vec d_vec16)
    end
  else Some (i, d2_vec).

(** [for (; i < d; ++i) { int d = a[i] - b[i]; d2 += d * d; }] *)
Fixpoint l2sq_tail (fuel : nat) (a b : list byte) (d i : N) (d2 : Z) : option Z :=
  if (i <? d)%N then
    match fuel with
    | O => None
    | S fuel' =>
        ai <- load_i8 a i ;;
        bi <- load_i8 b i ;;
        let d_ := i32 (ai - bi) in
        l2sq_tail fuel' a b d (N.succ i) (i32 (d2 + i32 (d_ * d_)))
    end
  else Some d2.

(** The [int d2] that the kernel converts to its result. *)
Definition avx2_i8_l2sq_int (a b : list byte) (d : N) : option Z :=
  r <- l2sq_chunks (N.to_nat (d / 32)) a b d 0%N _mm256_setzero_si256 ;;
  let d2 := horizontal_sum (snd r) in
  l2sq_tail (N.to_nat d) a b d (fst r) d2.

Definition simsimd_avx2_i8_l2sq (a b : list byte) (d : N) : option f32 :=
  d2 <- avx2_i8_l2sq_int a b d ;; Some (f32_of_int d2).

Section Cosine.

(** [simsimd_approximate_inverse_square_root] is declared in [types.h],
    which is not part of the sources at hand: the kernels are stated for any
    such function. *)
Variable simsimd_approximate_inverse_square_root : f32 -> f32.

Fixpoint cos_chunks (fuel : nat) (a b : list byte) (d i : N) (ab_vec a2_vec b2_vec : Z)
    : option (N * (Z * Z * Z)) :=
  if (size_t (i + 31) <? d)%N then
    match fuel with
    | O => None
    | S fuel' =>
        a_vec <- _mm256_loadu_si256 a i ;;
        b_vec <- _mm256_loadu_si256 b i ;;
        let ab_part_vec := _mm256_maddubs_epi16 a_vec b_vec in
        let a2_part_vec := _mm256_maddubs_epi16 a_vec a_vec in
        let b2_part_vec := _mm256_maddubs_epi16 b_vec b_vec in
        cos_chunks fuel' a b d (size_t (i + 32))
          (_mm256_add_epi32 ab_vec ab_part_vec)
          (_mm256_add_epi32 a2_vec a2_part_vec)
          (_mm256_add_epi32 b2_vec b2_part_vec)
    end
  else Some (i, (ab_vec, a2_vec, b2_vec)).

(** [for (; i < d; ++i) { int ai = a[i], bi = b[i];
      ab += ai * bi, a2 += ai * ai, b2 += bi * bi; }] *)
Fixpoint cos_tail (fuel : nat) (a b : list byte) (d i : N) (ab a2 b2 : Z)
    : option (Z * Z * Z) :=
  if (i <? d)%N then
    match fuel with
    | O => None
    | S fuel' =>
        ai <- load_i8 a i ;;
        bi <- load_i8 b i ;;
        cos_tail fuel' a b d (N.succ i)
          (i32 (ab + i32 (ai * bi))) (i32 (a2 + i32 (ai * ai))) (i32 (b2 + i32 (bi * bi)))
    end
  else Some (ab, a2, b2).

(** The three [int] sums [ab], [a2], [b2] as they stand before the last
    line of the kernel. *)
Definition avx2_i8_cos_sums (a b : list byte) (d : N) : option (Z * Z * Z) :=
  r <- cos_chunks (N.to_nat (d / 32)) a b d 0%N
         _mm256_setzero_si256 _mm256_setzero_si256 _mm256_setzero_si256 ;;
  let '(i, (ab_vec, a2_vec, b2_vec)) := r in
  cos_tail (N.to_nat d) a b d i
    (horizontal_sum ab_vec) (horizontal_sum a2_vec) (horizontal_sum b2_vec).

(** [return 1 - ab * simsimd_approximate_inverse_square_root (a2 * b2);] *)
Definition cos_result (ab a2 b2 : Z) : f32 :=
  f32_sub (f32_of_int 1)
    (f32_mul (f32_of_int ab)
       (simsimd_approximate_inverse_square_root (f32_of_int (i32 (a2 * b2))))).

Definition simsimd_avx2_i8_cos (a b : list byte) (d : N) : option f32 :=
  s <- avx2_i8_cos_sums a b d ;;
  let '(ab, a2, b2) := s in
  Some (cos_result ab a2 b2).

Definition simsimd_avx2_i8_ip (a b : list byte) (d : N) : option f32 :=
  simsimd_avx2_i8_cos a b d.

End Cosine.

End Avx2I8.

(** ** Reference quantities *)

(** Number of set bits of a byte value, counted on its eight bit positions. *)
Definition set_bits (v : Z) : Z :=
  Z.of_nat (length (filter (Z.testbit v) [0; 1; 2; 3; 4; 5; 6; 7])).

(** Sum, over the positions two operands share, of the bit count of
    [op a[i] b[i]]. *)
Fixpoint popcount_total (op : Z -> Z -> Z) (a b : list byte) : Z :=
  match a, b with
  | x :: a', y :: b' => popcount 8 (op (u8 x) (u8 y)) + popcount_total op a' b'
  | _, _ => 0
  end.

(** The same sum over the first [n] words of each operand. *)
Definition total (op : Z -> Z -> Z) (a b : list byte) (n : N) : Z :=
  popcount_total op (firstn (N.to_nat n) a) (firstn (N.to_nat n) b).

(** The value the AVX-512 kernels read out of an accumulator register. *)
Definition lanes_sum (v : Z) : Z := u64 (Binary._mm512_reduce_add_epi64 v).

(** The part of an operand between index [i] and index [i + k]. *)
Definition window (a : list byte) (i : N) (k : nat) : list byte :=
  firstn k (skipn (N.to_nat i) a).

(** Sum of the squared differences of the signed elements two operands
    share, in exact integer arithmetic. *)
Fixpoint l2sq_exact (a b : list byte) : Z :=
  match a, b with
  | x :: a', y :: b' => (s8 x - s8 y) * (s8 x - s8 y) + l2sq_exact a' b'
  | _, _ => 0
  end.

(** Dot product of the signed elements two operands share. *)
Fixpoint dot (a b : list byte) : Z :=
  match a, b with
  | x :: a', y :: b' => s8 x * s8 y + dot a' b'
  | _, _ => 0
  end.

(** Both operands have [n] readable words. *)
Definition readable (a b : list byte) (n : N) : Prop :=
  (n <= N.of_nat (length a))%N /\ (n <= N.of_nat (length b))%N.

(** A bitwise operation acts on each bit position on its own and maps two
    clear bits to a clear bit. *)
Class Bitwise (op : Z -> Z -> Z) : Type := {
  bit_fn : bool -> bool -> bool;
  bit_fn_zero : bit_fn false false = false;
  bit_spec : forall a b i, Z.testbit (op a b) i = bit_fn (Z.testbit a i) (Z.testbit b i)
}.

#[export] Instance Bitwise_lxor : Bitwise Z.lxor :=
  {| bit_fn := xorb; bit_fn_zero := eq_refl; bit_spec := Z.lxor_spec |}.
#[export] Instance Bitwise_land : Bitwise Z.land :=
  {| bit_fn := andb; bit_fn_zero := eq_refl; bit_spec := Z.land_spec |}.
#[export] Instance Bitwise_lor : Bitwise Z.lor :=
  {| bit_fn := orb; bit_fn_zero := eq_refl; bit_spec := Z.lor_spec |}.

(** ** Conversions *)

Lemma i32_range z : - 2 ^ 31 <= i32 z < 2 ^ 31.
Proof.
  unfold i32. pose proof (Z.mod_pos_bound (z + 2 ^ 31) (2 ^ 32) ltac:(lia)). lia.
Qed.

Lemma i32_small z : - 2 ^ 31 <= z < 2 ^ 31 -> i32 z = z.
Proof.
  intros H. unfold i32. rewrite Z.mod_small by lia. lia.
Qed.

Lemma i32_add_l x y : i32 (i32 x + y) = i32 (x + y).
Proof.
  unfold i32. f_equal.
  replace ((x + 2 ^ 31) mod 2 ^ 32 - 2 ^ 31 + y + 2 ^ 31)
    with ((x + 2 ^ 31) mod 2 ^ 32 + y) by lia.
  rewrite Z.add_mod_idemp_l by lia. f_equal. lia.
Qed.

Lemma i32_idem x : i32 (i32 x) = i32 x.
Proof. apply i32_small, i32_range. Qed.

Lemma u8_range x : 0 <= u8 x < 256.
Proof.
  unfold u8. pose proof (Byte.to_N_bounded x). lia.
Qed.

Lemma u8_b8_of_int z : u8 (b8_of_int z) = z mod 256.
Proof.
  unfold b8_of_int, u8.
  pose proof (Z.mod_pos_bound z 256 ltac:(lia)) as Hm.
  destruct (Byte.of_N (Z.to_N (z mod 256))) as [x|] eqn:E.
  - apply Byte.to_of_N in E. rewrite E. lia.
  - apply Byte.of_N_None_iff in E. lia.
Qed.

(** ** Bit counts *)

Lemma popcount_ext w : forall v v',
  (forall i, 0 <= i < Z.of_nat w -> Z.testbit v i = Z.testbit v' i) ->
  popcount w v = popcount w v'.
Proof.
  induction w as [|w IH]; intros v v' H; [reflexivity|].
  cbn [popcount]. f_equal.
  - rewrite <- !Z.bit0_odd. f_equal. apply H. lia.
  - apply IH. intros i Hi. rewrite !Z.div2_spec, !Z.shiftr_spec by lia. apply H. lia.
Qed.

Lemma popcount_range w : forall v, 0 <= popcount w v <= Z.of_nat w.
Proof.
  induction w as [|w IH]; intros v; cbn [popcount]; [lia|].
  specialize (IH (Z.div2 v)). destruct (Z.odd v); cbn [Z.b2z]; lia.
Qed.

Lemma popcount_mod w v : popcount w (v mod 2 ^ Z.of_nat w) = popcount w v.
Proof.
  apply popcount_ext. intros i Hi. apply Z.mod_pow2_bits_low. lia.
Qed.

Lemma popcount_0 w : popcount w 0 = 0.
Proof. induction w as [|w IH]; cbn [popcount]; [reflexivity|]. exact IH. Qed.

Lemma popcount_split m : forall w v,
  popcount (m + w) v = popcount m v + popcount w (Z.shiftr v (Z.of_nat m)).
Proof.
  induction m as [|m IH]; intros w v.
  - cbn [popcount Nat.add Z.of_nat]. rewrite Z.shiftr_0_r. reflexivity.
  - cbn [popcount Nat.add]. rewrite IH, Z.div2_spec, Z.shiftr_shiftr by lia.
    replace (1 + Z.of_nat m) with (Z.of_nat (S m)) by lia. lia.
Qed.

Lemma popcount_table x : Binary.simsimd_popcount_b8 x = popcount 8 (u8 x).
Proof. destruct x; reflexivity. Qed.

Lemma popcount_set_bits x : popcount 8 (u8 x) = set_bits (u8 x).
Proof. destruct x; reflexivity. Qed.

(** The count the serial kernels add for one word. *)
Lemma popcount_b8_op op x y :
  Binary.simsimd_popcount_b8 (b8_of_int (op (u8 x) (u8 y))) = popcount 8 (op (u8 x) (u8 y)).
Proof.
  rewrite popcount_table, u8_b8_of_int. exact (popcount_mod 8 _).
Qed.

(** ** Operands as lists *)

Lemma skipn_cons_nth {A : Type} (a : list A) : forall j, (j < length a)%nat ->
  exists x, nth_error a j = Some x /\ skipn j a = x :: skipn (S j) a.
Proof.
  induction a as [|h a IH]; intros j Hj; cbn [length] in Hj; [lia|].
  destruct j as [|j].
  - exists h. split; reflexivity.
  - destruct (IH j ltac:(lia)) as [x [Hn Hs]]. exists x. split; [exact Hn|exact Hs].
Qed.

Lemma popcount_total_app op : forall x y x' y', length x = length y ->
  popcount_total op (x ++ x') (y ++ y') = popcount_total op x y + popcount_total op x' y'.
Proof.
  induction x as [|u x IH]; intros [|v y] x' y' H; cbn [length] in H; try discriminate.
  - reflexivity.
  - cbn [app popcount_total]. rewrite IH by lia. lia.
Qed.

Lemma popcount_total_range op : forall a b,
  0 <= popcount_total op a b <= 8 * Z.of_nat (length a).
Proof.
  induction a as [|x a IH]; intros [|y b]; cbn [popcount_total length]; try lia.
  specialize (IH b). pose proof (popcount_range 8 (op (u8 x) (u8 y))). lia.
Qed.

Lemma total_range op a b n : 0 <= total op a b n <= 8 * Z.of_N n.
Proof.
  unfold total.
  pose proof (popcount_total_range op (firstn (N.to_nat n) a) (firstn (N.to_nat n) b)) as H.
  pose proof (firstn_le_length (N.to_nat n) a). lia.
Qed.

Lemma total_0 op a b : total op a b 0 = 0.
Proof. reflexivity. Qed.

Lemma window_step (a : list byte) i k : (N.to_nat i < length a)%nat ->
  exists x, nth_error a (N.to_nat i) = Some x /\
            window a i (S k) = x :: window a (N.succ i) k.
Proof.
  intros H. destruct (skipn_cons_nth a _ H) as [x [Hn Hs]].
  exists x. split; [exact Hn|].
  unfold window. rewrite Hs, N2Nat.inj_succ. reflexivity.
Qed.

Lemma firstn_add {A : Type} c k : forall l : list A,
  firstn (c + k) l = firstn c l ++ firstn k (skipn c l).
Proof.
  induction c as [|c IH]; intros [|h l]; cbn [Nat.add firstn skipn app].
  - reflexivity.
  - reflexivity.
  - rewrite firstn_nil. reflexivity.
  - rewrite IH. reflexivity.
Qed.

Lemma window_split (a : list byte) i c k :
  window a i (c + k) = window a i c ++ window a (i + N.of_nat c) k.
Proof.
  unfold window. rewrite firstn_add, skipn_skipn. do 3 f_equal. lia.
Qed.

Lemma window_length (a : list byte) i k :
  (N.to_nat i + k <= length a)%nat -> length (window a i k) = k.
Proof.
  intros H. unfold window. rewrite length_firstn, length_skipn. lia.
Qed.

(** ** The serial kernels in closed form *)

Import Binary.

Lemma serial_hamming_loop_spec : forall k fuel a b n i acc,
  N.to_nat n = (N.to_nat i + k)%nat -> (k <= fuel)%nat ->
  (N.to_nat n <= length a)%nat -> (N.to_nat n <= length b)%nat ->
  i32 acc = acc ->
  serial_hamming_loop fuel a b n i acc =
    Some (i32 (acc + popcount_total Z.lxor (window a i k) (window b i k))).
Proof.
  induction k as [|k IH]; intros fuel a b n i acc Hn Hf Ha Hb Hacc.
  - assert (i = n) as -> by lia.
    destruct fuel; cbn [serial_hamming_loop]; rewrite N.eqb_refl;
      unfold window; cbn [firstn popcount_total]; rewrite Z.add_0_r, Hacc; reflexivity.
  - destruct fuel as [|fuel]; [lia|]. cbn [serial_hamming_loop].
    destruct (N.eqb_spec i n) as [E|_]; [lia|].
    destruct (window_step a i k ltac:(lia)) as [x [Hx Hwa]].
    destruct (window_step b i k ltac:(lia)) as [y [Hy Hwb]].
    unfold load. rewrite Hx, Hy. cbn [option_map bind].
    rewrite (IH fuel a b n (N.succ i)) by (try apply i32_idem; lia).
    rewrite Hwa, Hwb. cbn [popcount_total].
    rewrite popcount_b8_op, i32_add_l. do 2 f_equal. lia.
Qed.

Lemma serial_jaccard_loop_spec : forall k fuel a b n i acc1 acc2,
  N.to_nat n = (N.to_nat i + k)%nat -> (k <= fuel)%nat ->
  (N.to_nat n <= length a)%nat -> (N.to_nat n <= length b)%nat ->
  i32 acc1 = acc1 -> i32 acc2 = acc2 ->
  serial_jaccard_loop fuel a b n i acc1 acc2 =
    Some (i32 (acc1 + popcount_total Z.land (window a i k) (window b i k)),
          i32 (acc2 + popcount_total Z.lor (window a i k) (window b i k))).
Proof.
  induction k as [|k IH]; intros fuel a b n i acc1 acc2 Hn Hf Ha Hb Hacc1 Hacc2.
  - assert (i = n) as -> by lia.
    destruct fuel; cbn [serial_jaccard_loop]; rewrite N.eqb_refl;
      unfold window; cbn [firstn popcount_total]; rewrite !Z.add_0_r, Hacc1, Hacc2;
      reflexivity.
  - destruct fuel as [|fuel]; [lia|]. cbn [serial_jaccard_loop].
    destruct (N.eqb_spec i n) as [E|_]; [lia|].
    destruct (window_step a i k ltac:(lia)) as [x [Hx Hwa]].
    destruct (window_step b i k ltac:(lia)) as [y [Hy Hwb]].
    unfold load. rewrite Hx, Hy. cbn [option_map bind].
    rewrite (IH fuel a b n (N.succ i)) by (try apply i32_idem; lia).
    rewrite Hwa, Hwb. cbn [popcount_total].
    rewrite !popcount_b8_op, !i32_add_l. do 3 f_equal; lia.
Qed.

Lemma readable_lengths a b n : readable a b n ->
  (N.to_nat n <= length a)%nat /\ (N.to_nat n <= length b)%nat.
Proof. unfold readable. lia. Qed.

Lemma serial_hamming_closed a b n : readable a b n ->
  simsimd_serial_b8_hamming a b n = Some (f32_of_int (i32 (total Z.lxor a b n))).
Proof.
  intros H. destruct (readable_lengths a b n H) as [Ha Hb].
  unfold simsimd_serial_b8_hamming.
  rewrite (serial_hamming_loop_spec (N.to_nat n)) by (try reflexivity; lia).
  reflexivity.
Qed.

Lemma serial_jaccard_closed a b n : readable a b n ->
  simsimd_serial_b8_jaccard a b n =
    Some (jaccard_result (i32 (total Z.land a b n)) (i32 (total Z.lor a b n))).
Proof.
  intros H. destruct (readable_lengths a b n H) as [Ha Hb].
  unfold simsimd_serial_b8_jaccard.
  rewrite (serial_jaccard_loop_spec (N.to_nat n)) by (try reflexivity; lia).
  reflexivity.
Qed.

(** ** The NEON kernels in closed form *)

Lemma lanes_total op : forall x y,
  sum (map (popcount 8) (zip_with op (map u8 x) (map u8 y))) = popcount_total op x y.
Proof.
  induction x as [|u x IH]; intros [|v y]; cbn [map zip_with sum fold_right popcount_total];
    try reflexivity.
  fold (sum (map (popcount 8) (zip_with op (map u8 x) (map u8 y)))). rewrite IH. reflexivity.
Qed.

Lemma load_bytes_window a i k : (N.to_nat i + k <= length a)%nat ->
  load_bytes a i k = Some (map u8 (window a i k)).
Proof.
  intros H. unfold load_bytes. fold (window a i k).
  rewrite window_length by exact H. rewrite Nat.eqb_refl. reflexivity.
Qed.

(** Sixteen counts of at most eight fit the [uint8_t] that [vaddvq_u8]
    returns. *)
Lemma vaddvq_total op a b i :
  (N.to_nat i + 16 <= length a)%nat -> (N.to_nat i + 16 <= length b)%nat ->
  vaddvq_u8 (vcntq_u8 (zip_with op (map u8 (window a i 16)) (map u8 (window b i 16)))) =
    popcount_total op (window a i 16) (window b i 16).
Proof.
  intros Ha Hb. unfold vaddvq_u8, vcntq_u8. rewrite lanes_total.
  pose proof (popcount_total_range op (window a i 16) (window b i 16)) as R.
  rewrite window_length in R by exact Ha.
  apply Z.mod_small. lia.
Qed.

Lemma size_t_small n : (n < 2 ^ 64)%N -> size_t n = n.
Proof. intros H. unfold size_t. apply N.mod_small. exact H. Qed.

Lemma neon_hamming_loop_spec : forall fuel r a b n i acc,
  N.to_nat n = (N.to_nat i + r)%nat -> (r < 16 * S fuel)%nat ->
  (n + 16 < 2 ^ 64)%N ->
  (N.to_nat n <= length a)%nat -> (N.to_nat n <= length b)%nat ->
  i32 acc = acc ->
  neon_hamming_loop fuel a b n i acc =
    Some (i32 (acc + popcount_total Z.lxor (window a i r) (window b i r))).
Proof.
  induction fuel as [|fuel IH]; intros r a b n i acc Hn Hf Hmax Ha Hb Hacc;
    cbn [neon_hamming_loop]; rewrite (size_t_small (i + 16)) by lia;
    destruct (N.leb_spec (i + 16) n) as [Hle|Hgt];
    try (apply serial_hamming_loop_spec; (exact Hacc || lia)).
  - lia.
  - unfold vld1q_u8, veorq_u8. rewrite !load_bytes_window by lia. cbn [bind].
    rewrite vaddvq_total by lia.
    rewrite (IH (r - 16)%nat) by (try apply i32_idem; lia).
    replace r with (16 + (r - 16))%nat at 3 4 by lia.
    rewrite !window_split, popcount_total_app, i32_add_l
      by (rewrite !window_length; lia).
    change (N.of_nat 16) with 16%N. do 2 f_equal. lia.
Qed.

Lemma neon_jaccard_loop_spec : forall fuel r a b n i acc1 acc2,
  N.to_nat n = (N.to_nat i + r)%nat -> (r < 16 * S fuel)%nat ->
  (n + 16 < 2 ^ 64)%N ->
  (N.to_nat n <= length a)%nat -> (N.to_nat n <= length b)%nat ->
  i32 acc1 = acc1 -> i32 acc2 = acc2 ->
  neon_jaccard_loop fuel a b n i acc1 acc2 =
    Some (i32 (acc1 + popcount_total Z.land (window a i r) (window b i r)),
          i32 (acc2 + popcount_total Z.lor (window a i r) (window b i r))).
Proof.
  induction fuel as [|fuel IH]; intros r a b n i acc1 acc2 Hn Hf Hmax Ha Hb Hacc1 Hacc2;
    cbn [neon_jaccard_loop]; rewrite (size_t_small (i + 16)) by lia;
    destruct (N.leb_spec (i + 16) n) as [Hle|Hgt];
    try (apply serial_jaccard_loop_spec; (exact Hacc1 || exact Hacc2 || lia)).
  - lia.
  - unfold vld1q_u8, vandq_u8, vorrq_u8. rewrite !load_bytes_window by lia. cbn [bind].
    rewrite !vaddvq_total by lia.
    rewrite (IH (r - 16)%nat) by (try apply i32_idem; lia).
    replace r with (16 + (r - 16))%nat at 5 6 7 8 by lia.
    rewrite !window_split, !popcount_total_app, !i32_add_l
      by (rewrite !window_length; lia).
    change (N.of_nat 16) with 16%N. do 3 f_equal; lia.
Qed.

Lemma chunk_fuel n c : (0 < c)%N ->
  (N.to_nat n < N.to_nat c * S (N.to_nat (n / c)))%nat.
Proof.
  intros Hc. pose proof (N.div_mod n c ltac:(lia)) as E.
  pose proof (N.mod_lt n c ltac:(lia)) as L. nia.
Qed.

Lemma window_0 a n : window a 0 (N.to_nat n) = firstn (N.to_nat n) a.
Proof. reflexivity. Qed.

Lemma neon_hamming_closed a b n : readable a b n -> (n + 16 < 2 ^ 64)%N ->
  simsimd_neon_b8_hamming a b n = Some (f32_of_int (i32 (total Z.lxor a b n))).
Proof.
  intros H Hmax. destruct (readable_lengths a b n H) as [Ha Hb].
  unfold simsimd_neon_b8_hamming.
  rewrite (neon_hamming_loop_spec _ (N.to_nat n))
    by (try reflexivity; try exact (chunk_fuel n 16 eq_refl); lia).
  reflexivity.
Qed.

Lemma neon_jaccard_closed a b n : readable a b n -> (n + 16 < 2 ^ 64)%N ->
  simsimd_neon_b8_jaccard a b n =
    Some (jaccard_result (i32 (total Z.land a b n)) (i32 (total Z.lor a b n))).
Proof.
  intros H Hmax. destruct (readable_lengths a b n H) as [Ha Hb].
  unfold simsimd_neon_b8_jaccard.
  rewrite (neon_jaccard_loop_spec _ (N.to_nat n))
    by (try reflexivity; try exact (chunk_fuel n 16 eq_refl); lia).
  reflexivity.
Qed.

(** ** The SVE kernels in closed form *)

Lemma op_0_0 op `{Bitwise op} : op 0 0 = 0.
Proof.
  apply Z.bits_inj'. intros i _.
  rewrite bit_spec, !Z.bits_0. apply bit_fn_zero.
Qed.

(** Lanes filled with zero beyond the operands add nothing to a count. *)
Lemma lanes_total_padded op `{Bitwise op} z : forall x y, length x = length y ->
  sum (map (popcount 8) (zip_with op (map u8 x ++ repeat 0 z) (map u8 y ++ repeat 0 z))) =
    popcount_total op x y.
Proof.
  induction x as [|u x IH]; intros [|v y] E; cbn [length] in E; try discriminate.
  - cbn [map app popcount_total]. clear E.
    induction z as [|z IHz]; [reflexivity|].
    cbn [repeat zip_with map sum fold_right].
    fold (sum (map (popcount 8) (zip_with op (repeat 0 z) (repeat 0 z)))).
    rewrite IHz, op_0_0 by assumption. reflexivity.
  - cbn [map app zip_with sum fold_right popcount_total].
    fold (sum (map (popcount 8)
                 (zip_with op (map u8 x ++ repeat 0 z) (map u8 y ++ repeat 0 z)))).
    rewrite IH by lia. reflexivity.
Qed.

Lemma whilelt_shape : forall lanes x y,
  whilelt lanes x y =
    repeat true (Nat.min lanes (N.to_nat (y - x))) ++
    repeat false (lanes - N.to_nat (y - x)).
Proof.
  induction lanes as [|lanes IH]; intros x y; [reflexivity|].
  cbn [whilelt]. rewrite IH.
  destruct (N.ltb_spec x y) as [Hlt|Hge].
  - replace (N.to_nat (y - x)) with (S (N.to_nat (y - N.succ x))) by lia.
    reflexivity.
  - replace (N.to_nat (y - x)) with 0%nat by lia.
    replace (N.to_nat (y - N.succ x)) with 0%nat by lia.
    rewrite !Nat.min_0_r, !Nat.sub_0_r. reflexivity.
Qed.

Lemma svld1_lanes_inactive z : forall p, svld1_lanes (repeat false z) p = Some (repeat 0 z).
Proof.
  induction z as [|z IH]; intros p; [reflexivity|].
  cbn [repeat svld1_lanes bind]. rewrite IH. reflexivity.
Qed.

Lemma svld1_lanes_shape z : forall m p, (m <= length p)%nat ->
  svld1_lanes (repeat true m ++ repeat false z) p =
    Some (map u8 (firstn m p) ++ repeat 0 z).
Proof.
  induction m as [|m IH]; intros p Hm.
  - apply svld1_lanes_inactive.
  - destruct p as [|x p]; cbn [length] in Hm; [lia|].
    cbn [repeat app svld1_lanes hd_error option_map bind tl].
    rewrite IH by lia. reflexivity.
Qed.

Section SVE_closed.

Variable svcntb : N.
Hypothesis svcntb_bounds : (0 < svcntb <= 256)%N.

Lemma u32_small n : (n < 2 ^ 32)%N -> u32 n = n.
Proof. intros H. unfold u32. apply N.mod_small. exact H. Qed.

(** One pass of the SVE loop body over the operands from index [i]: the
    predicate selects the [m] words left, up to a full register. *)
Lemma sve_chunk op `{Bitwise op} a b n i r :
  N.to_nat n = (N.to_nat i + r)%nat -> (n < 2 ^ 32)%N ->
  (N.to_nat n <= length a)%nat -> (N.to_nat n <= length b)%nat ->
  let pg := svwhilelt_b8 svcntb (u32 i) (u32 n) in
  let m := Nat.min (N.to_nat svcntb) r in
  exists a_vec b_vec,
    svld1_u8 pg a i = Some a_vec /\ svld1_u8 pg b i = Some b_vec /\
    svaddv_u8 (svcnt_u8_x (zip_with op a_vec b_vec)) =
      popcount_total op (window a i m) (window b i m).
Proof.
  intros Hn Hmax Ha Hb pg m.
  assert (Hpg : pg = repeat true m ++ repeat false (N.to_nat svcntb - r)).
  { unfold pg, svwhilelt_b8. rewrite !u32_small by lia. rewrite whilelt_shape.
    replace (N.to_nat (n - i)) with r by lia. reflexivity. }
  exists (map u8 (window a i m) ++ repeat 0 (N.to_nat svcntb - r)).
  exists (map u8 (window b i m) ++ repeat 0 (N.to_nat svcntb - r)).
  unfold svld1_u8. rewrite Hpg.
  rewrite !svld1_lanes_shape by (rewrite length_skipn; lia).
  repeat split.
  unfold svaddv_u8, svcnt_u8_x.
  rewrite lanes_total_padded by (try assumption; rewrite !window_length; lia).
  pose proof (popcount_total_range op (window a i m) (window b i m)) as R.
  rewrite window_length in R by lia.
  apply Z.mod_small. lia.
Qed.

Lemma sve_hamming_loop_spec : forall fuel r a b n i acc,
  N.to_nat n = (N.to_nat i + r)%nat -> (r < fuel)%nat -> (n < 2 ^ 32)%N ->
  (N.to_nat n <= length a)%nat -> (N.to_nat n <= length b)%nat ->
  sve_hamming_loop svcntb fuel a b n i acc =
    Some (i32 (acc + popcount_total Z.lxor (window a i r) (window b i r))).
Proof.
  induction fuel as [|fuel IH]; intros r a b n i acc Hn Hf Hmax Ha Hb; [lia|].
  cbn [sve_hamming_loop].
  destruct (sve_chunk Z.lxor a b n i r Hn Hmax Ha Hb) as [va [vb [Eva [Evb Ecnt]]]].
  rewrite Eva, Evb. cbn [bind]. unfold sveor_u8_m. rewrite Ecnt.
  rewrite (size_t_small (i + svcntb)) by lia.
  destruct (N.ltb_spec (i + svcntb) n) as [Hlt|Hge].
  - rewrite (IH (r - N.to_nat svcntb)%nat) by lia.
    replace (Nat.min (N.to_nat svcntb) r) with (N.to_nat svcntb) by lia.
    replace r with (N.to_nat svcntb + (r - N.to_nat svcntb))%nat at 3 4 by lia.
    rewrite !window_split, popcount_total_app, i32_add_l
      by (rewrite !window_length; lia).
    rewrite N2Nat.id. do 2 f_equal. lia.
  - replace (Nat.min (N.to_nat svcntb) r) with r by lia. reflexivity.
Qed.

Lemma sve_jaccard_loop_spec : forall fuel r a b n i acc1 acc2,
  N.to_nat n = (N.to_nat i + r)%nat -> (r < fuel)%nat -> (n < 2 ^ 32)%N ->
  (N.to_nat n <= length a)%nat -> (N.to_nat n <= length b)%nat ->
  sve_jaccard_loop svcntb fuel a b n i acc1 acc2 =
    Some (i32 (acc1 + popcount_total Z.land (window a i r) (window b i r)),
          i32 (acc2 + popcount_total Z.lor (window a i r) (window b i r))).
Proof.
  induction fuel as [|fuel IH]; intros r a b n i acc1 acc2 Hn Hf Hmax Ha Hb; [lia|].
  cbn [sve_jaccard_loop].
  destruct (sve_chunk Z.land a b n i r Hn Hmax Ha Hb) as [va [vb [Eva [Evb Eand]]]].
  destruct (sve_chunk Z.lor a b n i r Hn Hmax Ha Hb) as [va' [vb' [Eva' [Evb' Eor]]]].
  rewrite Eva in Eva'. rewrite Evb in Evb'.
  injection Eva' as <-. injection Evb' as <-.
  rewrite Eva, Evb. cbn [bind]. unfold svand_u8_m, svorr_u8_m. rewrite Eand, Eor.
  rewrite (size_t_small (i + svcntb)) by lia.
  destruct (N.ltb_spec (i + svcntb) n) as [Hlt|Hge].
  - rewrite (IH (r - N.to_nat svcntb)%nat) by lia.
    replace (Nat.min (N.to_nat svcntb) r) with (N.to_nat svcntb) by lia.
    replace r with (N.to_nat svcntb + (r - N.to_nat svcntb))%nat at 5 6 7 8 by lia.
    rewrite !window_split, !popcount_total_app, !i32_add_l
      by (rewrite !window_length; lia).
    rewrite N2Nat.id. do 3 f_equal; lia.
  - replace (Nat.min (N.to_nat svcntb) r) with r by lia. reflexivity.
Qed.

Lemma sve_hamming_closed a b n : readable a b n -> (n < 2 ^ 32)%N ->
  simsimd_sve_b8_hamming svcntb a b n = Some (f32_of_int (i32 (total Z.lxor a b n))).
Proof.
  intros H Hmax. destruct (readable_lengths a b n H) as [Ha Hb].
  unfold simsimd_sve_b8_hamming.
  rewrite (sve_hamming_loop_spec _ (N.to_nat n)) by (try reflexivity; lia).
  reflexivity.
Qed.

Lemma sve_jaccard_closed a b n : readable a b n -> (n < 2 ^ 32)%N ->
  simsimd_sve_b8_jaccard svcntb a b n =
    Some (jaccard_result (i32 (total Z.land a b n)) (i32 (total Z.lor a b n))).
Proof.
  intros H Hmax. destruct (readable_lengths a b n H) as [Ha Hb].
  unfold simsimd_sve_b8_jaccard.
  rewrite (sve_jaccard_loop_spec _ (N.to_nat n)) by (try reflexivity; lia).
  reflexivity.
Qed.

End SVE_closed.

(** ** Registers as packed lanes *)

Lemma length_unpack w c : forall v, length (unpack w c v) = c.
Proof. induction c as [|c IH]; intros v; cbn [unpack length]; [|rewrite IH]; reflexivity. Qed.

Lemma length_zip_with {A B C : Type} (f : A -> B -> C) : forall x y,
  length x = length y -> length (zip_with f x y) = length x.
Proof.
  induction x as [|u x IH]; intros [|v y] E; cbn [length] in E; try discriminate;
    cbn [zip_with length]; [|rewrite IH by lia]; reflexivity.
Qed.

Lemma pack_div w x rest : 0 < w -> (x mod 2 ^ w + 2 ^ w * pack w rest) / 2 ^ w = pack w rest.
Proof.
  intros Hw. assert (0 < 2 ^ w) by (apply Z.pow_pos_nonneg; lia).
  rewrite Z.mul_comm, Z.div_add by lia.
  rewrite Z.div_small by (apply Z.mod_pos_bound; lia). reflexivity.
Qed.

Lemma pack_mod w x rest : 0 < w ->
  (x mod 2 ^ w + 2 ^ w * pack w rest) mod 2 ^ w = x mod 2 ^ w.
Proof.
  intros Hw. assert (0 < 2 ^ w) by (apply Z.pow_pos_nonneg; lia).
  rewrite Z.mul_comm, Z.mod_add by lia. apply Z.mod_mod. lia.
Qed.

Lemma unpack_pack w : 0 < w -> forall l,
  unpack w (length l) (pack w l) = map (fun x => x mod 2 ^ w) l.
Proof.
  intros Hw. induction l as [|x l IH]; [reflexivity|].
  cbn [length pack unpack map]. rewrite pack_mod, pack_div, IH by exact Hw. reflexivity.
Qed.

Lemma sum_app x y : sum (x ++ y) = sum x + sum y.
Proof.
  induction x as [|u x IH]; cbn [app sum fold_right]; [reflexivity|].
  fold (sum (x ++ y)). fold (sum x). rewrite IH. lia.
Qed.

Lemma sum_map_mod m l : 0 < m -> sum (map (fun x => x mod m) l) mod m = sum l mod m.
Proof.
  intros Hm. induction l as [|x l IH]; [reflexivity|].
  cbn [map sum fold_right]. fold (sum (map (fun x => x mod m) l)). fold (sum l).
  rewrite Z.add_mod, IH, Z.mod_mod, <- Z.add_mod by lia. reflexivity.
Qed.

Lemma sum_zip_add : forall x y, length x = length y ->
  sum (zip_with Z.add x y) = sum x + sum y.
Proof.
  induction x as [|u x IH]; intros [|v y] E; cbn [length] in E; try discriminate;
    [reflexivity|].
  cbn [zip_with sum fold_right]. fold (sum (zip_with Z.add x y)). fold (sum x). fold (sum y).
  rewrite IH by lia. lia.
Qed.

(** The counts of the lanes of a register add up to the count of the whole
    register. *)
Lemma sum_popcount_unpack w c : forall v,
  sum (map (popcount w) (unpack (Z.of_nat w) c v)) = popcount (c * w) v.
Proof.
  induction c as [|c IH]; intros v; [reflexivity|].
  cbn [unpack map sum fold_right Nat.mul].
  fold (sum (map (popcount w) (unpack (Z.of_nat w) c (v / 2 ^ Z.of_nat w)))).
  rewrite IH, popcount_mod, popcount_split, Z.shiftr_div_pow2 by lia. reflexivity.
Qed.

Lemma pack_bits_low w x rest i : 0 <= i < w ->
  Z.testbit (x mod 2 ^ w + 2 ^ w * pack w rest) i = Z.testbit x i.
Proof.
  intros Hi.
  rewrite <- (Z.mod_pow2_bits_low _ w i) by lia.
  rewrite pack_mod by lia. apply Z.mod_pow2_bits_low. lia.
Qed.

Lemma pack_bits_high w x rest i : 0 < w -> 0 <= i ->
  Z.testbit (x mod 2 ^ w + 2 ^ w * pack w rest) (i + w) = Z.testbit (pack w rest) i.
Proof.
  intros Hw Hi.
  rewrite <- Z.shiftr_spec, Z.shiftr_div_pow2, pack_div by lia. reflexivity.
Qed.

(** A bitwise operation on two registers acts on each byte lane. *)
Lemma popcount_pack_op op `{Bitwise op} : forall x y, length x = length y ->
  popcount (8 * length x) (op (pack 8 x) (pack 8 y)) =
    sum (map (popcount 8) (zip_with op x y)).
Proof.
  induction x as [|u x IH]; intros [|v y] E; cbn [length] in E; try discriminate.
  - reflexivity.
  - cbn [length pack zip_with map sum fold_right].
    fold (sum (map (popcount 8) (zip_with op x y))).
    replace (8 * S (length x))%nat with (8 + 8 * length x)%nat by lia.
    rewrite popcount_split, <- IH by lia. f_equal.
    + apply popcount_ext. intros i Hi.
      rewrite !(@bit_spec op _), !pack_bits_low by lia. reflexivity.
    + apply popcount_ext. intros i Hi.
      rewrite Z.shiftr_spec, !(@bit_spec op _) by lia.
      change (Z.of_nat 8) with 8.
      rewrite !pack_bits_high by lia. reflexivity.
Qed.

(** ** The AVX-512 kernels in closed form *)

Lemma bzhi_bits n j : (n < 64)%N -> 0 <= j ->
  Z.testbit (_bzhi_u64 0xFFFFFFFFFFFFFFFF n) j = (j <? Z.of_N n).
Proof.
  intros Hn Hj. unfold _bzhi_u64.
  rewrite N.mod_small by lia.
  destruct (Z.ltb_spec (Z.of_N n) 64) as [_|]; [|lia].
  change 0xFFFFFFFFFFFFFFFF with (Z.ones 64).
  destruct (Z.ltb_spec j (Z.of_N n)) as [Hlt|Hge].
  - rewrite Z.mod_pow2_bits_low by lia. apply Z.ones_spec_low. lia.
  - apply Z.mod_pow2_bits_high. lia.
Qed.

Lemma maskz_lanes_shape mask n : (forall j, 0 <= j -> Z.testbit mask j = (j <? n)) ->
  forall lanes k p, 0 <= k ->
  (Nat.min lanes (Z.to_nat (n - k)) <= length p)%nat ->
  maskz_lanes lanes k mask p =
    Some (map u8 (firstn (Nat.min lanes (Z.to_nat (n - k))) p) ++
          repeat 0 (lanes - Z.to_nat (n - k))).
Proof.
  intros Hmask. induction lanes as [|lanes IH]; intros k p Hk Hm; [reflexivity|].
  cbn [maskz_lanes]. rewrite Hmask by exact Hk.
  destruct (Z.ltb_spec k n) as [Hlt|Hge].
  - replace (Z.to_nat (n - k)) with (S (Z.to_nat (n - (k + 1)))) in * by lia.
    cbn [Nat.min] in Hm. destruct p as [|x p]; cbn [length] in Hm; [lia|].
    cbn [hd_error option_map bind tl]. rewrite IH by lia. reflexivity.
  - replace (Z.to_nat (n - k)) with 0%nat in * by lia.
    cbn [bind]. rewrite IH by (replace (Z.to_nat (n - (k + 1))) with 0%nat; lia).
    replace (Z.to_nat (n - (k + 1))) with 0%nat by lia.
    rewrite !Nat.min_0_r, !Nat.sub_0_r. reflexivity.
Qed.

(** The last, masked load: the [n] words left, then zero lanes. *)
Lemma maskz_loadu_tail a n : (n < 64)%N -> (N.to_nat n <= length a)%nat ->
  _mm512_maskz_loadu_epi8 (_bzhi_u64 0xFFFFFFFFFFFFFFFF n) a =
    Some (pack 8 (map u8 (firstn (N.to_nat n) a) ++ repeat 0 (64 - N.to_nat n))).
Proof.
  intros Hn Ha. unfold _mm512_maskz_loadu_epi8.
  assert (E : Z.to_nat (Z.of_N n - 0) = N.to_nat n) by lia.
  rewrite (maskz_lanes_shape _ (Z.of_N n)) by
    (try (intros j Hj; apply bzhi_bits; assumption); rewrite ?E; lia).
  rewrite E. replace (Nat.min 64 (N.to_nat n)) with (N.to_nat n) by lia.
  reflexivity.
Qed.

Lemma loadu_full a : (64 <= length a)%nat ->
  _mm512_loadu_epi8 a = Some (pack 8 (map u8 (firstn 64 a))).
Proof.
  intros Ha. unfold _mm512_loadu_epi8.
  rewrite load_bytes_window by (cbn; lia). reflexivity.
Qed.

Lemma lanes_sum_add_popcnt acc v :
  lanes_sum (_mm512_add_epi64 acc (_mm512_popcnt_epi64 v)) =
    u64 (lanes_sum acc + popcount 512 v).
Proof.
  unfold lanes_sum, u64, _mm512_reduce_add_epi64, _mm512_add_epi64, _mm512_popcnt_epi64.
  pose proof (unpack_pack 64 eq_refl) as UP.
  pose proof (UP (zip_with Z.add (unpack 64 8 acc)
                   (unpack 64 8 (pack 64 (map (popcount 64) (unpack 64 8 v)))))) as U1.
  rewrite length_zip_with, length_unpack in U1 by (rewrite !length_unpack; reflexivity).
  rewrite U1. clear U1.
  pose proof (UP (map (popcount 64) (unpack 64 8 v))) as U2.
  rewrite length_map, length_unpack in U2. rewrite U2. clear U2 UP.
  rewrite sum_map_mod by lia.
  rewrite sum_zip_add by (rewrite length_map, !length_unpack; reflexivity).
  rewrite Z.add_mod_idemp_l by lia.
  rewrite <- Z.add_mod_idemp_r, sum_map_mod, Z.add_mod_idemp_r by lia.
  change 64 with (Z.of_nat 64) at 2.
  rewrite (sum_popcount_unpack 64 8). reflexivity.
Qed.

(** What one pass adds to an accumulator, for a chunk of [x] and [y]
    padded with [z] zero lanes to the 64 lanes of a register. *)
Lemma lanes_sum_chunk op `{Bitwise op} acc x y z :
  length x = length y -> (length x + z = 64)%nat ->
  lanes_sum (_mm512_add_epi64 acc
               (_mm512_popcnt_epi64
                  (op (pack 8 (map u8 x ++ repeat 0 z)) (pack 8 (map u8 y ++ repeat 0 z))))) =
    u64 (lanes_sum acc + popcount_total op x y).
Proof.
  intros E L. rewrite lanes_sum_add_popcnt.
  pose proof (popcount_pack_op op (map u8 x ++ repeat 0 z) (map u8 y ++ repeat 0 z)) as P.
  rewrite !length_app, !length_map, repeat_length in P.
  replace (8 * (length x + z))%nat with 512%nat in P by lia.
  rewrite P, lanes_total_padded by (try assumption; lia). reflexivity.
Qed.

Lemma lanes_sum_chunk_full op `{Bitwise op} acc x y :
  length x = 64%nat -> length y = 64%nat ->
  lanes_sum (_mm512_add_epi64 acc
               (_mm512_popcnt_epi64 (op (pack 8 (map u8 x)) (pack 8 (map u8 y))))) =
    u64 (lanes_sum acc + popcount_total op x y).
Proof.
  intros Hx Hy. pose proof (lanes_sum_chunk op acc x y 0) as P.
  cbn [repeat] in P. rewrite !app_nil_r in P. apply P; lia.
Qed.

Lemma u64_add_l x y : u64 (u64 x + y) = u64 (x + y).
Proof. unfold u64. apply Z.add_mod_idemp_l. lia. Qed.

Lemma firstn_chunk {A : Type} (a : list A) n : (64 <= n)%N ->
  firstn (N.to_nat n) a = firstn 64 a ++ firstn (N.to_nat (n - 64)) (skipn 64 a).
Proof.
  intros H. rewrite <- firstn_add. f_equal. lia.
Qed.

Lemma avx512_hamming_cycle_spec : forall fuel a b n acc,
  (N.to_nat n < 64 * fuel)%nat ->
  (N.to_nat n <= length a)%nat -> (N.to_nat n <= length b)%nat ->
  exists v, avx512_hamming_cycle fuel a b n acc = Some v /\
            lanes_sum v = u64 (lanes_sum acc + total Z.lxor a b n).
Proof.
  induction fuel as [|fuel IH]; intros a b n acc Hf Ha Hb; [lia|].
  cbn [avx512_hamming_cycle]. unfold total, _mm512_xor_si512.
  destruct (N.ltb_spec n 64) as [Hlt|Hge].
  - rewrite !maskz_loadu_tail by assumption. cbn [bind negb N.eqb].
    eexists. split; [reflexivity|].
    apply lanes_sum_chunk; rewrite ?length_firstn; (exact _ || lia).
  - rewrite !loadu_full by lia. cbn [bind].
    rewrite (firstn_chunk a n), (firstn_chunk b n) by exact Hge.
    rewrite popcount_total_app by (rewrite !length_firstn; lia).
    destruct (N.eqb_spec (n - 64) 0) as [E|E]; cbn [negb].
    + eexists. split; [reflexivity|].
      rewrite E. change (N.to_nat 0) with 0%nat. rewrite !firstn_O.
      cbn [popcount_total]. rewrite Z.add_0_r.
      apply lanes_sum_chunk_full; rewrite ?length_firstn; (exact _ || lia).
    + destruct (IH (skipn 64 a) (skipn 64 b) (n - 64)%N
                  (_mm512_add_epi64 acc
                     (_mm512_popcnt_epi64
                        (Z.lxor (pack 8 (map u8 (firstn 64 a)))
                                (pack 8 (map u8 (firstn 64 b)))))))
        as [v [Ev Hv]]; try (rewrite ?length_skipn; lia).
      exists v. split; [exact Ev|].
      rewrite Hv. unfold total.
      rewrite lanes_sum_chunk_full by (rewrite ?length_firstn; (exact _ || lia)).
      rewrite u64_add_l. f_equal. lia.
Qed.

Lemma avx512_jaccard_cycle_spec : forall fuel a b n acc1 acc2,
  (N.to_nat n < 64 * fuel)%nat ->
  (N.to_nat n <= length a)%nat -> (N.to_nat n <= length b)%nat ->
  exists v1 v2, avx512_jaccard_cycle fuel a b n acc1 acc2 = Some (v1, v2) /\
            lanes_sum v1 = u64 (lanes_sum acc1 + total Z.land a b n) /\
            lanes_sum v2 = u64 (lanes_sum acc2 + total Z.lor a b n).
Proof.
  induction fuel as [|fuel IH]; intros a b n acc1 acc2 Hf Ha Hb; [lia|].
  cbn [avx512_jaccard_cycle]. unfold total, _mm512_and_si512, _mm512_or_si512.
  destruct (N.ltb_spec n 64) as [Hlt|Hge].
  - rewrite !maskz_loadu_tail by assumption. cbn [bind negb N.eqb].
    do 2 eexists. split; [reflexivity|].
    split; apply lanes_sum_chunk; rewrite ?length_firstn; (exact _ || lia).
  - rewrite !loadu_full by lia. cbn [bind].
    rewrite (firstn_chunk a n), (firstn_chunk b n) by exact Hge.
    rewrite !popcount_total_app by (rewrite !length_firstn; lia).
    destruct (N.eqb_spec (n - 64) 0) as [E|E]; cbn [negb].
    + do 2 eexists. split; [reflexivity|].
      rewrite E. change (N.to_nat 0) with 0%nat. rewrite !firstn_O.
      cbn [popcount_total]. rewrite !Z.add_0_r.
      split; apply lanes_sum_chunk_full; rewrite ?length_firstn; (exact _ || lia).
    + destruct (IH (skipn 64 a) (skipn 64 b) (n - 64)%N
                  (_mm512_add_epi64 acc1
                     (_mm512_popcnt_epi64
                        (Z.land (pack 8 (map u8 (firstn 64 a)))
                                (pack 8 (map u8 (firstn 64 b))))))
                  (_mm512_add_epi64 acc2
                     (_mm512_popcnt_epi64
                        (Z.lor (pack 8 (map u8 (firstn 64 a)))
                               (pack 8 (map u8 (firstn 64 b)))))))
        as [v1 [v2 [Ev [Hv1 Hv2]]]]; try (rewrite ?length_skipn; lia).
      exists v1, v2. split; [exact Ev|].
      rewrite Hv1, Hv2. unfold total.
      rewrite !lanes_sum_chunk_full by (rewrite ?length_firstn; (exact _ || lia)).
      rewrite !u64_add_l. split; f_equal; lia.
Qed.

Lemma lanes_sum_zero : lanes_sum _mm512_setzero_si512 = 0.
Proof. reflexivity. Qed.

Lemma avx512_hamming_closed a b n : readable a b n ->
  simsimd_avx512_b8_hamming a b n = Some (f32_of_int (u64 (total Z.lxor a b n))).
Proof.
  intros H. destruct (readable_lengths a b n H) as [Ha Hb].
  unfold simsimd_avx512_b8_hamming.
  destruct (avx512_hamming_cycle_spec (S (N.to_nat (n / 64))) a b n _mm512_setzero_si512)
    as [v [Ev Hv]]; try assumption.
  { exact (chunk_fuel n 64 eq_refl). }
  rewrite Ev. cbn [bind]. fold (lanes_sum v). rewrite Hv, lanes_sum_zero. reflexivity.
Qed.

Lemma avx512_jaccard_closed a b n : readable a b n ->
  simsimd_avx512_b8_jaccard a b n =
    Some (jaccard_result (u64 (total Z.land a b n)) (u64 (total Z.lor a b n))).
Proof.
  intros H. destruct (readable_lengths a b n H) as [Ha Hb].
  unfold simsimd_avx512_b8_jaccard.
  destruct (avx512_jaccard_cycle_spec (S (N.to_nat (n / 64))) a b n
              _mm512_setzero_si512 _mm512_setzero_si512)
    as [v1 [v2 [Ev [Hv1 Hv2]]]]; try assumption.
  { exact (chunk_fuel n 64 eq_refl). }
  rewrite Ev. cbn [bind fst snd]. fold (lanes_sum v1). fold (lanes_sum v2).
  rewrite Hv1, Hv2, lanes_sum_zero. reflexivity.
Qed.

(** ** The population count primitive *)

(** C9: for every byte value [x], [simsimd_popcount_b8] returns the number
    of set bits of [x], a value from 0 to 8, and it does so by reading entry
    [x] of a table of 256 entries, so that every byte has an entry. *)
Theorem simsimd_popcount_b8_set_bits : forall x : byte,
  simsimd_popcount_b8 x = set_bits (u8 x) /\
  0 <= simsimd_popcount_b8 x <= 8 /\
  nth_error lookup_table (N.to_nat (Byte.to_N x)) = Some (simsimd_popcount_b8 x) /\
  length lookup_table = 256%nat.
Proof.
  intros x. split; [|split; [|split]].
  - rewrite popcount_table. apply popcount_set_bits.
  - rewrite popcount_table. exact (popcount_range 8 (u8 x)).
  - destruct x; reflexivity.
  - reflexivity.
Qed.

(** ** Hamming distance: symmetry and identity *)

Lemma popcount_total_comm op : (forall x y, op x y = op y x) ->
  forall a b, popcount_total op a b = popcount_total op b a.
Proof.
  intros C. induction a as [|x a IH]; intros [|y b]; cbn [popcount_total]; try reflexivity.
  rewrite IH, C. reflexivity.
Qed.

Lemma popcount_total_lxor_diag : forall a, popcount_total Z.lxor a a = 0.
Proof.
  induction a as [|x a IH]; cbn [popcount_total]; [reflexivity|].
  rewrite IH, Z.lxor_nilpotent. reflexivity.
Qed.

Lemma readable_sym a b n : readable a b n -> readable b a n.
Proof. unfold readable. tauto. Qed.

Lemma readable_diag a b n : readable a b n -> readable a a n.
Proof. unfold readable. tauto. Qed.

(** C8: when [n] words of [a] and of [b] are readable, the serial Hamming
    kernel returns a result, the same for [(a, b)] and for [(b, a)], and it
    returns 0 for [(a, a)]. *)
Theorem serial_hamming_symmetry_identity : forall a b n,
  readable a b n ->
  exists h,
    simsimd_serial_b8_hamming a b n = Some h /\
    simsimd_serial_b8_hamming b a n = Some h /\
    simsimd_serial_b8_hamming a a n = Some (f32_of_int 0).
Proof.
  intros a b n H.
  exists (f32_of_int (i32 (total Z.lxor a b n))).
  rewrite (serial_hamming_closed a b n H).
  rewrite (serial_hamming_closed b a n (readable_sym a b n H)).
  rewrite (serial_hamming_closed a a n (readable_diag a b n H)).
  unfold total.
  rewrite (popcount_total_comm Z.lxor Z.lxor_comm (firstn (N.to_nat n) b)).
  rewrite popcount_total_lxor_diag. repeat split.
Qed.

Lemma serial_hamming_symmetry_identity_witness :
  exists h,
    simsimd_serial_b8_hamming [xff; x00; x0f] [x01; x00; xf0] 3 = Some h /\
    simsimd_serial_b8_hamming [x01; x00; xf0] [xff; x00; x0f] 3 = Some h /\
    simsimd_serial_b8_hamming [xff; x00; x0f] [xff; x00; x0f] 3 = Some (f32_of_int 0).
Proof.
  apply (serial_hamming_symmetry_identity [xff; x00; x0f] [x01; x00; xf0] 3).
  unfold readable. cbn [length]. lia.
Defined.

(** ** Operands of one repeated word, and counts within 32 bits *)

Lemma firstn_repeat {A : Type} (x : A) k : firstn k (repeat x k) = repeat x k.
Proof. induction k as [|k IH]; cbn [repeat firstn]; [|rewrite IH]; reflexivity. Qed.

Lemma popcount_total_repeat op x y k :
  popcount_total op (repeat x k) (repeat y k) = Z.of_nat k * popcount 8 (op (u8 x) (u8 y)).
Proof.
  induction k as [|k IH]; cbn [repeat popcount_total]; [lia|]. rewrite IH. lia.
Qed.

Lemma total_repeat op x y n :
  total op (repeat x (N.to_nat n)) (repeat y (N.to_nat n)) n =
    Z.of_N n * popcount 8 (op (u8 x) (u8 y)).
Proof.
  unfold total. rewrite !firstn_repeat, popcount_total_repeat, N_nat_Z. reflexivity.
Qed.

Lemma readable_repeat x y n : readable (repeat x (N.to_nat n)) (repeat y (N.to_nat n)) n.
Proof. unfold readable. rewrite !repeat_length, N2Nat.id. lia. Qed.


Lemma i32_total op a b n : total op a b n < 2 ^ 31 -> i32 (total op a b n) = total op a b n.
Proof.
  intros H. pose proof (total_range op a b n). apply i32_small. lia.
Qed.

Lemma u64_total op a b n : total op a b n < 2 ^ 31 -> u64 (total op a b n) = total op a b n.
Proof.
  intros H. pose proof (total_range op a b n). apply Z.mod_small. lia.
Qed.

(** A word has no more bits in common with another than the two have
    together. *)
Lemma popcount_land_le_lor w : forall x y,
  popcount w (Z.land x y) <= popcount w (Z.lor x y).
Proof.
  induction w as [|w IH]; intros x y; cbn [popcount]; [lia|].
  rewrite !Z.div2_spec, Z.shiftr_land, Z.shiftr_lor.
  specialize (IH (Z.shiftr x 1) (Z.shiftr y 1)).
  rewrite <- !Z.bit0_odd, Z.land_spec, Z.lor_spec.
  destruct (Z.testbit x 0), (Z.testbit y 0); cbn [andb orb Z.b2z]; lia.
Qed.

Lemma total_land_le_lor a b n : total Z.land a b n <= total Z.lor a b n.
Proof.
  unfold total. generalize (firstn (N.to_nat n) b). generalize (firstn (N.to_nat n) a).
  induction l as [|x l IH]; intros [|y l']; cbn [popcount_total]; try lia.
  specialize (IH l'). pose proof (popcount_land_le_lor 8 (u8 x) (u8 y)). lia.
Qed.

(** ** Jaccard distance of the serial kernel *)

(** C4, for totals the 32-bit counters can hold: when [n] words of each
    operand are readable and the total bit count of the word-wise OR is
    below [2^31] (as it is for every [n < 2^28]), the serial Jaccard kernel
    returns 0 if that total is 0, and [1 - intersection / union] otherwise,
    the two totals being those of the word-wise AND and OR; on two all-zero
    operands it returns 0. *)
Theorem serial_jaccard_formula : forall a b n,
  readable a b n -> total Z.lor a b n < 2 ^ 31 ->
  simsimd_serial_b8_jaccard a b n =
    Some (if total Z.lor a b n =? 0
          then f32_of_int 0
          else f32_sub (f32_of_int 1)
                 (f32_div (f32_of_int (total Z.land a b n))
                          (f32_of_int (total Z.lor a b n)))) /\
  simsimd_serial_b8_jaccard (repeat x00 (N.to_nat n)) (repeat x00 (N.to_nat n)) n =
    Some (f32_of_int 0).
Proof.
  intros a b n H Hn. pose proof (total_land_le_lor a b n) as Hle. split.
  - rewrite (serial_jaccard_closed a b n H), !i32_total by lia.
    unfold jaccard_result. destruct (total Z.lor a b n =? 0); reflexivity.
  - rewrite (serial_jaccard_closed _ _ n (readable_repeat x00 x00 n)), !total_repeat.
    change (popcount 8 (Z.land (u8 x00) (u8 x00))) with 0.
    change (popcount 8 (Z.lor (u8 x00) (u8 x00))) with 0.
    rewrite Z.mul_0_r. reflexivity.
Qed.

Lemma serial_jaccard_formula_witness :
  simsimd_serial_b8_jaccard [xff; x00; x0f] [x01; x00; xf0] 3 =
    Some (if total Z.lor [xff; x00; x0f] [x01; x00; xf0] 3 =? 0
          then f32_of_int 0
          else f32_sub (f32_of_int 1)
                 (f32_div (f32_of_int (total Z.land [xff; x00; x0f] [x01; x00; xf0] 3))
                          (f32_of_int (total Z.lor [xff; x00; x0f] [x01; x00; xf0] 3)))) /\
  simsimd_serial_b8_jaccard (repeat x00 (N.to_nat 3)) (repeat x00 (N.to_nat 3)) 3 =
    Some (f32_of_int 0).
Proof.
  apply (serial_jaccard_formula [xff; x00; x0f] [x01; x00; xf0] 3).
  - unfold readable. cbn [length]. lia.
  - vm_compute. reflexivity.
Defined.

(** At [2^28] words the OR total of all-ones against [0x0f] words is [2^31]:
    the [simsimd_i32_t] counter holds [-2^31] and the kernel returns 1.5,
    where [1 - intersection / union] is 0.5. *)
Lemma serial_jaccard_counter_wraps :
  readable (repeat xff (N.to_nat (2 ^ 28))) (repeat x0f (N.to_nat (2 ^ 28))) (2 ^ 28) /\
  total Z.lor (repeat xff (N.to_nat (2 ^ 28))) (repeat x0f (N.to_nat (2 ^ 28))) (2 ^ 28)
    <> 0 /\
  simsimd_serial_b8_jaccard
    (repeat xff (N.to_nat (2 ^ 28))) (repeat x0f (N.to_nat (2 ^ 28))) (2 ^ 28) <>
  Some (f32_sub (f32_of_int 1)
          (f32_div
             (f32_of_int
                (total Z.land (repeat xff (N.to_nat (2 ^ 28)))
                   (repeat x0f (N.to_nat (2 ^ 28))) (2 ^ 28)))
             (f32_of_int
                (total Z.lor (repeat xff (N.to_nat (2 ^ 28)))
                   (repeat x0f (N.to_nat (2 ^ 28))) (2 ^ 28))))).
Proof.
  pose proof (readable_repeat xff x0f (2 ^ 28)) as R.
  split; [exact R|].
  rewrite (serial_jaccard_closed _ _ _ R), !total_repeat.
  vm_compute. split; intros E; discriminate E.
Qed.

(** ** Agreement of the wide-vector kernels with the serial ones *)

(** C1, for counts the 32-bit counters can hold: when [n < 2^32] words of
    each operand are readable and fewer than [2^31] bits differ (as is the
    case for every [n < 2^28]), the NEON, SVE (for every register size the
    hardware may have) and AVX-512 Hamming kernels return the value the
    serial kernel returns, the conversion to [simsimd_f32_t] of the number
    of differing bits. *)
Theorem wide_hamming_agrees_with_serial : forall svcntb a b n,
  (0 < svcntb <= 256)%N -> readable a b n ->
  (n < 2 ^ 32)%N -> total Z.lxor a b n < 2 ^ 31 ->
  simsimd_serial_b8_hamming a b n = Some (f32_of_int (total Z.lxor a b n)) /\
  simsimd_neon_b8_hamming a b n = simsimd_serial_b8_hamming a b n /\
  simsimd_sve_b8_hamming svcntb a b n = simsimd_serial_b8_hamming a b n /\
  simsimd_avx512_b8_hamming a b n = simsimd_serial_b8_hamming a b n.
Proof.
  intros svcntb a b n Hvl H Hn Ht.
  rewrite (serial_hamming_closed a b n H).
  rewrite (neon_hamming_closed a b n H) by lia.
  rewrite (sve_hamming_closed svcntb Hvl a b n H) by lia.
  rewrite (avx512_hamming_closed a b n H).
  rewrite i32_total, u64_total by exact Ht.
  repeat split.
Qed.

Lemma wide_hamming_agrees_with_serial_witness :
  simsimd_serial_b8_hamming [xff; x00; x0f] [x01; x00; xf0] 3 =
    Some (f32_of_int (total Z.lxor [xff; x00; x0f] [x01; x00; xf0] 3)) /\
  simsimd_neon_b8_hamming [xff; x00; x0f] [x01; x00; xf0] 3 =
    simsimd_serial_b8_hamming [xff; x00; x0f] [x01; x00; xf0] 3 /\
  simsimd_sve_b8_hamming 16 [xff; x00; x0f] [x01; x00; xf0] 3 =
    simsimd_serial_b8_hamming [xff; x00; x0f] [x01; x00; xf0] 3 /\
  simsimd_avx512_b8_hamming [xff; x00; x0f] [x01; x00; xf0] 3 =
    simsimd_serial_b8_hamming [xff; x00; x0f] [x01; x00; xf0] 3.
Proof.
  apply (wide_hamming_agrees_with_serial 16 [xff; x00; x0f] [x01; x00; xf0] 3).
  - lia.
  - unfold readable. cbn [length]. lia.
  - lia.
  - vm_compute. reflexivity.
Defined.

(** At [2^28] words that differ in every bit the count is [2^31]: the
    [simsimd_i32_t] counter of the serial kernel holds [-2^31], the 64-bit
    lanes of the AVX-512 kernel hold [2^31]. *)
Lemma avx512_hamming_differs_from_serial :
  readable (repeat xff (N.to_nat (2 ^ 28))) (repeat x00 (N.to_nat (2 ^ 28))) (2 ^ 28) /\
  simsimd_avx512_b8_hamming
    (repeat xff (N.to_nat (2 ^ 28))) (repeat x00 (N.to_nat (2 ^ 28))) (2 ^ 28) <>
  simsimd_serial_b8_hamming
    (repeat xff (N.to_nat (2 ^ 28))) (repeat x00 (N.to_nat (2 ^ 28))) (2 ^ 28).
Proof.
  pose proof (readable_repeat xff x00 (2 ^ 28)) as R.
  split; [exact R|].
  rewrite (serial_hamming_closed _ _ _ R), (avx512_hamming_closed _ _ _ R), !total_repeat.
  vm_compute. intros E; discriminate E.
Qed.

(** C5, for totals the 32-bit counters can hold: when [n < 2^32] words of
    each operand are readable and the total bit count of the word-wise OR
    is below [2^31] (as it is for every [n < 2^28]), the NEON, SVE and
    AVX-512 Jaccard kernels, whether they finish with a scalar loop or with
    a masked load, return the value the serial kernel returns. *)
Theorem wide_jaccard_agrees_with_serial : forall svcntb a b n,
  (0 < svcntb <= 256)%N -> readable a b n ->
  (n < 2 ^ 32)%N -> total Z.lor a b n < 2 ^ 31 ->
  simsimd_serial_b8_jaccard a b n =
    Some (jaccard_result (total Z.land a b n) (total Z.lor a b n)) /\
  simsimd_neon_b8_jaccard a b n = simsimd_serial_b8_jaccard a b n /\
  simsimd_sve_b8_jaccard svcntb a b n = simsimd_serial_b8_jaccard a b n /\
  simsimd_avx512_b8_jaccard a b n = simsimd_serial_b8_jaccard a b n.
Proof.
  intros svcntb a b n Hvl H Hn Ht. pose proof (total_land_le_lor a b n) as Hle.
  rewrite (serial_jaccard_closed a b n H).
  rewrite (neon_jaccard_closed a b n H) by lia.
  rewrite (sve_jaccard_closed svcntb Hvl a b n H) by lia.
  rewrite (avx512_jaccard_closed a b n H).
  rewrite !i32_total, !u64_total by lia.
  repeat split.
Qed.

Lemma wide_jaccard_agrees_with_serial_witness :
  simsimd_serial_b8_jaccard [xff; x00; x0f] [x01; x00; xf0] 3 =
    Some (jaccard_result (total Z.land [xff; x00; x0f] [x01; x00; xf0] 3)
            (total Z.lor [xff; x00; x0f] [x01; x00; xf0] 3)) /\
  simsimd_neon_b8_jaccard [xff; x00; x0f] [x01; x00; xf0] 3 =
    simsimd_serial_b8_jaccard [xff; x00; x0f] [x01; x00; xf0] 3 /\
  simsimd_sve_b8_jaccard 16 [xff; x00; x0f] [x01; x00; xf0] 3 =
    simsimd_serial_b8_jaccard [xff; x00; x0f] [x01; x00; xf0] 3 /\
  simsimd_avx512_b8_jaccard [xff; x00; x0f] [x01; x00; xf0] 3 =
    simsimd_serial_b8_jaccard [xff; x00; x0f] [x01; x00; xf0] 3.
Proof.
  apply (wide_jaccard_agrees_with_serial 16 [xff; x00; x0f] [x01; x00; xf0] 3).
  - lia.
  - unfold readable. cbn [length]. lia.
  - lia.
  - vm_compute. reflexivity.
Defined.

(** At [2^28] words, all-ones against [0x0f] words: the serial kernel
    divides [2^30] by a union counter that holds [-2^31] and returns 1.5, the
    AVX-512 kernel divides by [2^31] and returns 0.5. *)
Lemma avx512_jaccard_differs_from_serial :
  readable (repeat xff (N.to_nat (2 ^ 28))) (repeat x0f (N.to_nat (2 ^ 28))) (2 ^ 28) /\
  simsimd_avx512_b8_jaccard
    (repeat xff (N.to_nat (2 ^ 28))) (repeat x0f (N.to_nat (2 ^ 28))) (2 ^ 28) <>
  simsimd_serial_b8_jaccard
    (repeat xff (N.to_nat (2 ^ 28))) (repeat x0f (N.to_nat (2 ^ 28))) (2 ^ 28).
Proof.
  pose proof (readable_repeat xff x0f (2 ^ 28)) as R.
  split; [exact R|].
  rewrite (serial_jaccard_closed _ _ _ R), (avx512_jaccard_closed _ _ _ R), !total_repeat.
  vm_compute. intros E; discriminate E.
Qed.

(** ** Length 0 *)

(** With no word to process the SVE predicate has no active lane: both
    loads return zero lanes without a read. *)
Lemma sve_load_nothing svcntb p :
  svld1_u8 (svwhilelt_b8 svcntb (u32 0) (u32 0)) p 0 = Some (repeat 0 (N.to_nat svcntb)).
Proof.
  unfold svld1_u8, svwhilelt_b8. change (u32 0) with 0%N.
  rewrite whilelt_shape. change (N.to_nat (0 - 0)) with 0%nat.
  rewrite Nat.min_0_r, Nat.sub_0_r. apply svld1_lanes_inactive.
Qed.

Lemma zero_lanes_count op `{Bitwise op} z :
  svaddv_u8 (svcnt_u8_x (zip_with op (repeat 0 z) (repeat 0 z))) = 0.
Proof.
  unfold svaddv_u8, svcnt_u8_x.
  pose proof (lanes_total_padded op z [] [] eq_refl) as P.
  cbn [map app popcount_total] in P. rewrite P. reflexivity.
Qed.

Lemma sve_hamming_zero_length svcntb a b :
  simsimd_sve_b8_hamming svcntb a b 0 = Some (f32_of_int 0).
Proof.
  unfold simsimd_sve_b8_hamming. change (S (N.to_nat 0)) with 1%nat.
  cbn [sve_hamming_loop]. rewrite !sve_load_nothing. cbn [bind].
  unfold sveor_u8_m. rewrite zero_lanes_count by exact _.
  destruct (N.ltb_spec (size_t (0 + svcntb)) 0) as [Hlt|_]; [lia|]. reflexivity.
Qed.

Lemma sve_jaccard_zero_length svcntb a b :
  simsimd_sve_b8_jaccard svcntb a b 0 = Some (f32_of_int 0).
Proof.
  unfold simsimd_sve_b8_jaccard. change (S (N.to_nat 0)) with 1%nat.
  cbn [sve_jaccard_loop]. rewrite !sve_load_nothing. cbn [bind].
  unfold svand_u8_m, svorr_u8_m. rewrite !zero_lanes_count by exact _.
  destruct (N.ltb_spec (size_t (0 + svcntb)) 0) as [Hlt|_]; [lia|]. reflexivity.
Qed.

Lemma readable_0 a b : readable a b 0.
Proof. unfold readable. lia. Qed.

(** C10: at length 0 every Hamming and Jaccard kernel (serial, NEON, SVE
    for every register size, AVX-512) and [simsimd_avx2_i8_l2sq] return 0,
    whatever the operands are; in particular they do so for operands with no
    readable element, where any read would leave the kernel without a
    result. *)
Theorem zero_length_returns_zero : forall svcntb a b,
  simsimd_serial_b8_hamming a b 0 = Some (f32_of_int 0) /\
  simsimd_serial_b8_jaccard a b 0 = Some (f32_of_int 0) /\
  simsimd_neon_b8_hamming a b 0 = Some (f32_of_int 0) /\
  simsimd_neon_b8_jaccard a b 0 = Some (f32_of_int 0) /\
  simsimd_sve_b8_hamming svcntb a b 0 = Some (f32_of_int 0) /\
  simsimd_sve_b8_jaccard svcntb a b 0 = Some (f32_of_int 0) /\
  simsimd_avx512_b8_hamming a b 0 = Some (f32_of_int 0) /\
  simsimd_avx512_b8_jaccard a b 0 = Some (f32_of_int 0) /\
  Avx2I8.simsimd_avx2_i8_l2sq a b 0 = Some (f32_of_int 0).
Proof.
  intros svcntb a b. pose proof (readable_0 a b) as R.
  rewrite (serial_hamming_closed a b 0 R), (serial_jaccard_closed a b 0 R).
  rewrite (neon_hamming_closed a b 0 R), (neon_jaccard_closed a b 0 R) by lia.
  rewrite (avx512_hamming_closed a b 0 R), (avx512_jaccard_closed a b 0 R).
  rewrite sve_hamming_zero_length, sve_jaccard_zero_length.
  rewrite !total_0. repeat split.
Qed.

(** ** The int8 AVX2 kernels *)

Import Avx2I8.

Lemma s8_range x : - 128 <= s8 x <= 127.
Proof.
  unfold s8. pose proof (u8_range x). destruct (Z.ltb_spec (u8 x) 128); lia.
Qed.

Lemma l2sq_exact_range : forall a b, 0 <= l2sq_exact a b <= 65025 * Z.of_nat (length a).
Proof.
  induction a as [|x a IH]; intros [|y b]; cbn [l2sq_exact length]; try lia.
  specialize (IH b). pose proof (s8_range x). pose proof (s8_range y).
  remember (s8 x - s8 y) as e eqn:He. assert (- 255 <= e <= 255) by lia.
  pose proof (Z.mul_nonneg_nonneg (255 - e) (255 + e) ltac:(lia) ltac:(lia)).
  pose proof (Z.square_nonneg e). nia.
Qed.

Lemma l2sq_exact_diag : forall a, l2sq_exact a a = 0.
Proof.
  induction a as [|x a IH]; cbn [l2sq_exact]; [reflexivity|]. rewrite IH. lia.
Qed.

(** The scalar loop of [simsimd_avx2_i8_l2sq] adds the exact squared
    differences of the elements from index [i] on. *)
Lemma l2sq_tail_spec : forall k fuel a b d i acc,
  N.to_nat d = (N.to_nat i + k)%nat -> (k <= fuel)%nat ->
  (N.to_nat d <= length a)%nat -> (N.to_nat d <= length b)%nat ->
  i32 acc = acc ->
  l2sq_tail fuel a b d i acc = Some (i32 (acc + l2sq_exact (window a i k) (window b i k))).
Proof.
  induction k as [|k IH]; intros fuel a b d i acc Hd Hf Ha Hb Hacc.
  - assert (i = d) as -> by lia.
    destruct fuel; cbn [l2sq_tail]; rewrite N.ltb_irrefl;
      unfold window; cbn [firstn l2sq_exact]; rewrite Z.add_0_r, Hacc; reflexivity.
  - destruct fuel as [|fuel]; [lia|]. cbn [l2sq_tail].
    destruct (N.ltb_spec i d) as [_|E]; [|lia].
    destruct (window_step a i k ltac:(lia)) as [x [Hx Hwa]].
    destruct (window_step b i k ltac:(lia)) as [y [Hy Hwb]].
    unfold load_i8. rewrite Hx, Hy. cbn [option_map bind].
    rewrite (IH fuel a b d (N.succ i)) by (try apply i32_idem; lia).
    rewrite Hwa, Hwb. cbn [l2sq_exact].
    pose proof (s8_range x). pose proof (s8_range y).
    rewrite (i32_small (s8 x - s8 y)) by lia.
    rewrite (i32_small ((s8 x - s8 y) * (s8 x - s8 y))) by nia.
    rewrite i32_add_l. do 2 f_equal. lia.
Qed.

(** Below one chunk of 32 elements only the scalar loop runs, and the
    kernel returns the exact sum of squared differences. *)
Lemma avx2_i8_l2sq_short a b d : readable a b d -> (d < 32)%N ->
  avx2_i8_l2sq_int a b d =
    Some (l2sq_exact (firstn (N.to_nat d) a) (firstn (N.to_nat d) b)).
Proof.
  intros H Hd. destruct (readable_lengths a b d H) as [Ha Hb].
  unfold avx2_i8_l2sq_int.
  assert (E : l2sq_chunks (N.to_nat (d / 32)) a b d 0 _mm256_setzero_si256 =
              Some (0%N, _mm256_setzero_si256)).
  { rewrite N.div_small by exact Hd. cbn [N.to_nat l2sq_chunks].
    change (size_t (0 + 31)) with 31%N.
    destruct (N.ltb_spec 31 d); [lia|reflexivity]. }
  rewrite E. cbn [bind fst snd].
  change (horizontal_sum _mm256_setzero_si256) with 0.
  rewrite (l2sq_tail_spec (N.to_nat d)) by (try reflexivity; lia).
  rewrite !window_0, Z.add_0_l.
  pose proof (l2sq_exact_range (firstn (N.to_nat d) a) (firstn (N.to_nat d) b)) as R.
  rewrite length_firstn in R. rewrite i32_small by lia. reflexivity.
Qed.


(** The scalar loop of [simsimd_avx2_i8_cos] adds the exact products of the
    elements from index [i] on. *)
Lemma cos_tail_spec : forall k fuel a b d i ab a2 b2,
  N.to_nat d = (N.to_nat i + k)%nat -> (k <= fuel)%nat ->
  (N.to_nat d <= length a)%nat -> (N.to_nat d <= length b)%nat ->
  i32 ab = ab -> i32 a2 = a2 -> i32 b2 = b2 ->
  cos_tail fuel a b d i ab a2 b2 =
    Some (i32 (ab + dot (window a i k) (window b i k)),
          i32 (a2 + dot (window a i k) (window a i k)),
          i32 (b2 + dot (window b i k) (window b i k))).
Proof.
  induction k as [|k IH]; intros fuel a b d i ab a2 b2 Hd Hf Ha Hb Hab Ha2 Hb2.
  - assert (i = d) as -> by lia.
    destruct fuel; cbn [cos_tail]; rewrite N.ltb_irrefl;
      unfold window; cbn [firstn dot]; rewrite !Z.add_0_r, Hab, Ha2, Hb2; reflexivity.
  - destruct fuel as [|fuel]; [lia|]. cbn [cos_tail].
    destruct (N.ltb_spec i d) as [_|E]; [|lia].
    destruct (window_step a i k ltac:(lia)) as [x [Hx Hwa]].
    destruct (window_step b i k ltac:(lia)) as [y [Hy Hwb]].
    unfold load_i8. rewrite Hx, Hy. cbn [option_map bind].
    rewrite (IH fuel a b d (N.succ i)) by (try apply i32_idem; lia).
    rewrite Hwa, Hwb. cbn [dot].
    pose proof (s8_range x). pose proof (s8_range y).
    rewrite (i32_small (s8 x * s8 y)), (i32_small (s8 x * s8 x)),
      (i32_small (s8 y * s8 y)) by nia.
    rewrite !i32_add_l, <- !Z.add_assoc. reflexivity.
Qed.


(** C2 does not hold from 32 elements on. The operands differ by 1 in
    element 2 only, so the sum of squared differences is 1. In the chunk
    loop the difference lands in the second 16-bit lane of
    [_mm256_maddubs_epi16], which [_mm256_add_epi32] adds as the upper half
    of a 32-bit lane: the kernel returns 65536. *)
Theorem avx2_i8_l2sq_chunk_not_exact :
  simsimd_avx2_i8_l2sq ([x00; x00; x01] ++ repeat x00 29) (repeat x00 32) 32 =
    Some (f32_of_int 65536) /\
  l2sq_exact ([x00; x00; x01] ++ repeat x00 29) (repeat x00 32) = 1.
Proof. split; vm_compute; reflexivity. Qed.

(** C7 does not hold for its first half from 32 elements on. With [a] all
    zero and [b] equal to 1 in element 2, the chunk loop multiplies the
    difference read as unsigned (255) by the difference read as signed (-1)
    and adds the 16-bit product [-255] as the upper half of a 32-bit lane:
    the kernel returns [-16711680], a negative value. *)
Theorem avx2_i8_l2sq_negative_result :
  simsimd_avx2_i8_l2sq (repeat x00 32) ([x00; x00; x01] ++ repeat x00 29) 32 =
    Some (f32_of_int (- 16711680)) /\
  SFltb (f32_of_int (- 16711680)) (f32_of_int 0) = true /\
  l2sq_exact (repeat x00 32) ([x00; x00; x01] ++ repeat x00 29) = 1.
Proof. repeat split; vm_compute; reflexivity. Qed.

(** C3: for every inverse square root approximation, all operands and
    every element count, [simsimd_avx2_i8_ip] returns what
    [simsimd_avx2_i8_cos] returns. *)
Theorem avx2_i8_ip_is_cos : forall rsqrt a b d,
  simsimd_avx2_i8_ip rsqrt a b d = simsimd_avx2_i8_cos rsqrt a b d.
Proof. intros rsqrt a b d. reflexivity. Qed.

(** C6 does not hold from 32 elements on. For [a = (1, 0, 1, 0, ...)] and
    [b = (1, 0, 0, ...)] the sums are [a.b = 1], [a.a = 2], [b.b = 1]; the
    chunk loop leaves 65537 in [a2], because the product of element 2 is
    added as the upper half of a 32-bit lane, and the kernel returns
    [1 - 1 * rsqrt (65537)]. *)
Theorem avx2_i8_cos_sums_not_dot_products : forall rsqrt,
  avx2_i8_cos_sums ([x01; x00; x01] ++ repeat x00 29) ([x01] ++ repeat x00 31) 32 =
    Some (1, 65537, 1) /\
  (dot ([x01; x00; x01] ++ repeat x00 29) ([x01] ++ repeat x00 31),
   dot ([x01; x00; x01] ++ repeat x00 29) ([x01; x00; x01] ++ repeat x00 29),
   dot ([x01] ++ repeat x00 31) ([x01] ++ repeat x00 31)) = (1, 2, 1) /\
  simsimd_avx2_i8_cos rsqrt ([x01; x00; x01] ++ repeat x00 29) ([x01] ++ repeat x00 31) 32 =
    Some (f32_sub (f32_of_int 1) (f32_mul (f32_of_int 1) (rsqrt (f32_of_int 65537)))).
Proof.
  intros rsqrt.
  assert (E : avx2_i8_cos_sums ([x01; x00; x01] ++ repeat x00 29) ([x01] ++ repeat x00 31) 32 =
              Some (1, 65537, 1)) by (vm_compute; reflexivity).
  split; [exact E|]. split; [vm_compute; reflexivity|].
  unfold simsimd_avx2_i8_cos. rewrite E. reflexivity.
Qed.

(** *** Identical operands *)

Lemma zip_sub_diag : forall l, zip_with Z.sub l l = map (fun _ => 0) l.
Proof.
  induction l as [|x l IH]; cbn [zip_with map]; [reflexivity|].
  rewrite IH, Z.sub_diag. reflexivity.
Qed.

Lemma pack_zeros w {A : Type} : forall l : list A, pack w (map (fun _ => 0) l) = 0.
Proof.
  induction l as [|x l IH]; cbn [map pack]; [reflexivity|].
  rewrite IH, Zmod_0_l. lia.
Qed.

Lemma sub_epi8_diag x : _mm256_sub_epi8 x x = 0.
Proof. unfold _mm256_sub_epi8. rewrite zip_sub_diag. apply pack_zeros. Qed.

(** On identical operands every chunk leaves the vector accumulator at
    zero. *)
Lemma l2sq_chunks_diag : forall fuel a d i,
  (N.to_nat d <= length a)%nat -> (d + 32 < 2 ^ 64)%N -> (i <= d)%N ->
  (N.to_nat (d - i) < 32 * S fuel)%nat ->
  exists i', l2sq_chunks fuel a a d i 0 = Some (i', 0) /\ (i <= i' <= d)%N.
Proof.
  induction fuel as [|fuel IH]; intros a d i Ha Hmax Hi Hf;
    cbn [l2sq_chunks]; rewrite (size_t_small (i + 31)) by lia;
    destruct (N.ltb_spec (i + 31) d) as [Hlt|Hge];
    try (exists i; split; [reflexivity|lia]).
  - lia.
  - unfold _mm256_loadu_si256. rewrite load_bytes_window by lia. cbn [bind].
    rewrite sub_epi8_diag.
    change (_mm256_add_epi32 0 (_mm256_maddubs_epi16 0 0)) with 0.
    rewrite (size_t_small (i + 32)) by lia.
    destruct (IH a d (i + 32)%N Ha Hmax ltac:(lia) ltac:(lia)) as [i' [E Hi']].
    exists i'. split; [exact E|lia].
Qed.

(** The second half of C7 does hold: an operand is at distance 0 from
    itself, at every readable length. *)
Lemma avx2_i8_l2sq_diag a d :
  (d <= N.of_nat (length a))%N -> (d + 32 < 2 ^ 64)%N ->
  simsimd_avx2_i8_l2sq a a d = Some (f32_of_int 0).
Proof.
  intros Hd Hmax. assert (Ha : (N.to_nat d <= length a)%nat) by lia.
  unfold simsimd_avx2_i8_l2sq, avx2_i8_l2sq_int.
  destruct (l2sq_chunks_diag (N.to_nat (d / 32)) a d 0 Ha Hmax ltac:(lia))
    as [i' [E Hi']].
  { rewrite N.sub_0_r. exact (chunk_fuel d 32 eq_refl). }
  unfold _mm256_setzero_si256. rewrite E. cbn [bind fst snd].
  change (horizontal_sum 0) with 0.
  rewrite (l2sq_tail_spec (N.to_nat (d - i'))) by (try reflexivity; lia).
  rewrite l2sq_exact_diag. reflexivity.
Qed.

(** ** Lengths beyond 32 bits in the SVE kernels *)

Section SVE_truncation.

Variable svcntb : N.
Hypothesis svcntb_bounds : (0 < svcntb <= 256)%N.

(** The predicate is computed from the low 32 bits of the index and of the
    length. When those of the length are zero no lane is ever active and
    the loop leaves the counter as it found it. *)
Lemma sve_hamming_loop_no_lane : forall fuel a b n i acc,
  u32 n = 0%N -> (n + 256 < 2 ^ 64)%N -> (i <= n)%N ->
  (N.to_nat (n - i) < fuel)%nat -> i32 acc = acc ->
  sve_hamming_loop svcntb fuel a b n i acc = Some acc.
Proof.
  induction fuel as [|fuel IH]; intros a b n i acc Hn Hmax Hi Hf Hacc; [lia|].
  cbn [sve_hamming_loop]. unfold svld1_u8, svwhilelt_b8.
  rewrite Hn, whilelt_shape. replace (N.to_nat (0 - u32 i)) with 0%nat by lia.
  rewrite Nat.min_0_r, Nat.sub_0_r. cbn [repeat app].
  rewrite !svld1_lanes_inactive. cbn [bind].
  unfold sveor_u8_m. rewrite zero_lanes_count by exact _.
  rewrite Z.add_0_r, Hacc, (size_t_small (i + svcntb)) by lia.
  destruct (N.ltb_spec (i + svcntb) n) as [Hlt|Hge]; [|reflexivity].
  apply IH; (assumption || lia).
Qed.

(** Operands that differ in the lowest bit of word 0 only, at a length
    whose low 32 bits are zero: the serial kernel counts 1, the SVE
    kernel 0. *)
Lemma sve_hamming_ignores_words m :
  u32 (N.succ m) = 0%N -> (N.succ m + 256 < 2 ^ 64)%N ->
  simsimd_serial_b8_hamming
    (x01 :: repeat x00 (N.to_nat m)) (x00 :: repeat x00 (N.to_nat m)) (N.succ m) =
    Some (f32_of_int 1) /\
  simsimd_sve_b8_hamming svcntb
    (x01 :: repeat x00 (N.to_nat m)) (x00 :: repeat x00 (N.to_nat m)) (N.succ m) =
    Some (f32_of_int 0).
Proof.
  intros Hlow Hmax. split.
  - rewrite serial_hamming_closed
      by (unfold readable; cbn [length]; rewrite repeat_length; lia).
    unfold total. rewrite N2Nat.inj_succ. cbn [firstn popcount_total].
    rewrite !firstn_repeat, popcount_total_repeat.
    change (popcount 8 (Z.lxor (u8 x00) (u8 x00))) with 0.
    rewrite Z.mul_0_r. reflexivity.
  - unfold simsimd_sve_b8_hamming.
    rewrite sve_hamming_loop_no_lane; (reflexivity || assumption || lia).
Qed.

(** The smallest such length is [2^32]. *)
Remark sve_hamming_ignores_words_at_2_32 :
  simsimd_serial_b8_hamming
    (x01 :: repeat x00 (N.to_nat (2 ^ 32 - 1)))
    (x00 :: repeat x00 (N.to_nat (2 ^ 32 - 1))) (N.succ (2 ^ 32 - 1)) =
    Some (f32_of_int 1) /\
  simsimd_sve_b8_hamming svcntb
    (x01 :: repeat x00 (N.to_nat (2 ^ 32 - 1)))
    (x00 :: repeat x00 (N.to_nat (2 ^ 32 - 1))) (N.succ (2 ^ 32 - 1)) =
    Some (f32_of_int 0).
Proof.
  apply sve_hamming_ignores_words; vm_compute; reflexivity.
Qed.

End SVE_truncation.

(** ** Further properties of the binary kernels *)

(** X1: the NEON kernels keep their counts in the same [simsimd_i32_t] as
    the serial ones, so they return the serial result at every readable
    length (short of the last 16 values of [simsimd_size_t]), also where the
    counters wrap. *)
Theorem neon_equals_serial : forall a b n,
  readable a b n -> (n + 16 < 2 ^ 64)%N ->
  simsimd_neon_b8_hamming a b n = simsimd_serial_b8_hamming a b n /\
  simsimd_neon_b8_jaccard a b n = simsimd_serial_b8_jaccard a b n.
Proof.
  intros a b n H Hmax.
  rewrite (neon_hamming_closed a b n H Hmax), (neon_jaccard_closed a b n H Hmax).
  rewrite (serial_hamming_closed a b n H), (serial_jaccard_closed a b n H).
  split; reflexivity.
Qed.

Lemma neon_equals_serial_witness :
  simsimd_neon_b8_hamming (repeat xff 37) (repeat x0f 37) 37 =
    simsimd_serial_b8_hamming (repeat xff 37) (repeat x0f 37) 37 /\
  simsimd_neon_b8_jaccard (repeat xff 37) (repeat x0f 37) 37 =
    simsimd_serial_b8_jaccard (repeat xff 37) (repeat x0f 37) 37.
Proof.
  apply (neon_equals_serial (repeat xff 37) (repeat x0f 37) 37).
  - unfold readable. cbn [repeat length]. lia.
  - lia.
Defined.

(** X2: at every readable length below [2^32] the SVE kernels return the
    serial result whatever the register size [svcntb()] of the hardware is,
    also where the counters wrap. *)
Theorem sve_equals_serial : forall svcntb a b n,
  (0 < svcntb <= 256)%N -> readable a b n -> (n < 2 ^ 32)%N ->
  simsimd_sve_b8_hamming svcntb a b n = simsimd_serial_b8_hamming a b n /\
  simsimd_sve_b8_jaccard svcntb a b n = simsimd_serial_b8_jaccard a b n.
Proof.
  intros svcntb a b n Hvl H Hn.
  rewrite (sve_hamming_closed svcntb Hvl a b n H Hn).
  rewrite (sve_jaccard_closed svcntb Hvl a b n H Hn).
  rewrite (serial_hamming_closed a b n H), (serial_jaccard_closed a b n H).
  split; reflexivity.
Qed.

Lemma sve_equals_serial_witness :
  simsimd_sve_b8_hamming 32 (repeat xff 37) (repeat x0f 37) 37 =
    simsimd_serial_b8_hamming (repeat xff 37) (repeat x0f 37) 37 /\
  simsimd_sve_b8_jaccard 32 (repeat xff 37) (repeat x0f 37) 37 =
    simsimd_serial_b8_jaccard (repeat xff 37) (repeat x0f 37) 37.
Proof.
  apply (sve_equals_serial 32 (repeat xff 37) (repeat x0f 37) 37).
  - lia.
  - unfold readable. cbn [repeat length]. lia.
  - lia.
Defined.

(** X3: the AVX-512 kernels count in 64-bit lanes: at every readable
    length below [2^61] the Hamming kernel returns the number of differing
    bits and the Jaccard kernel works on the exact totals, with no 32-bit
    limit. *)
Theorem avx512_counts_exact : forall a b n,
  readable a b n -> (n < 2 ^ 61)%N ->
  simsimd_avx512_b8_hamming a b n = Some (f32_of_int (total Z.lxor a b n)) /\
  simsimd_avx512_b8_jaccard a b n =
    Some (jaccard_result (total Z.land a b n) (total Z.lor a b n)).
Proof.
  intros a b n H Hn.
  rewrite (avx512_hamming_closed a b n H), (avx512_jaccard_closed a b n H).
  pose proof (total_range Z.lxor a b n). pose proof (total_range Z.land a b n).
  pose proof (total_range Z.lor a b n).
  unfold u64. rewrite !Z.mod_small by lia. split; reflexivity.
Qed.

Lemma avx512_counts_exact_witness :
  simsimd_avx512_b8_hamming (repeat xff 70) (repeat x0f 70) 70 =
    Some (f32_of_int (total Z.lxor (repeat xff 70) (repeat x0f 70) 70)) /\
  simsimd_avx512_b8_jaccard (repeat xff 70) (repeat x0f 70) 70 =
    Some (jaccard_result (total Z.land (repeat xff 70) (repeat x0f 70) 70)
            (total Z.lor (repeat xff 70) (repeat x0f 70) 70)).
Proof.
  apply (avx512_counts_exact (repeat xff 70) (repeat x0f 70) 70).
  - unfold readable. cbn [repeat length]. lia.
  - lia.
Defined.

Lemma total_comm op a b n : (forall x y, op x y = op y x) ->
  total op a b n = total op b a n.
Proof. intros C. unfold total. apply popcount_total_comm. exact C. Qed.

(** X4: the Jaccard kernels are symmetric in their operands: at every
    readable length below [2^32] each of the four kernels returns the same
    value for [(a, b)] and for [(b, a)]. *)
Theorem jaccard_symmetric : forall svcntb a b n,
  (0 < svcntb <= 256)%N -> readable a b n -> (n < 2 ^ 32)%N ->
  simsimd_serial_b8_jaccard a b n = simsimd_serial_b8_jaccard b a n /\
  simsimd_neon_b8_jaccard a b n = simsimd_neon_b8_jaccard b a n /\
  simsimd_sve_b8_jaccard svcntb a b n = simsimd_sve_b8_jaccard svcntb b a n /\
  simsimd_avx512_b8_jaccard a b n = simsimd_avx512_b8_jaccard b a n.
Proof.
  intros svcntb a b n Hvl H Hn. pose proof (readable_sym a b n H) as H'.
  rewrite (serial_jaccard_closed a b n H), (serial_jaccard_closed b a n H').
  rewrite (neon_jaccard_closed a b n H), (neon_jaccard_closed b a n H') by lia.
  rewrite (sve_jaccard_closed svcntb Hvl a b n H Hn).
  rewrite (sve_jaccard_closed svcntb Hvl b a n H' Hn).
  rewrite (avx512_jaccard_closed a b n H), (avx512_jaccard_closed b a n H').
  rewrite (total_comm Z.land a b n Z.land_comm), (total_comm Z.lor a b n Z.lor_comm).
  repeat split.
Qed.

Lemma jaccard_symmetric_witness :
  simsimd_serial_b8_jaccard [xff; x00; x0f] [x01; x00; xf0] 3 =
    simsimd_serial_b8_jaccard [x01; x00; xf0] [xff; x00; x0f] 3 /\
  simsimd_neon_b8_jaccard [xff; x00; x0f] [x01; x00; xf0] 3 =
    simsimd_neon_b8_jaccard [x01; x00; xf0] [xff; x00; x0f] 3 /\
  simsimd_sve_b8_jaccard 16 [xff; x00; x0f] [x01; x00; xf0] 3 =
    simsimd_sve_b8_jaccard 16 [x01; x00; xf0] [xff; x00; x0f] 3 /\
  simsimd_avx512_b8_jaccard [xff; x00; x0f] [x01; x00; xf0] 3 =
    simsimd_avx512_b8_jaccard [x01; x00; xf0] [xff; x00; x0f] 3.
Proof.
  apply (jaccard_symmetric 16 [xff; x00; x0f] [x01; x00; xf0] 3).
  - lia.
  - unfold readable. cbn [length]. lia.
  - lia.
Defined.

(** X5: the kernels depend on the first [n_words] words of each operand
    only, whether the last chunk is read by a scalar loop (NEON), under a
    predicate (SVE) or under a mask (AVX-512): operands that agree on those
    words give the same result, whatever follows them and however much of
    it is readable. *)
Theorem binary_kernels_use_prefix_only : forall svcntb a b a' b' n,
  (0 < svcntb <= 256)%N -> readable a b n -> readable a' b' n -> (n < 2 ^ 32)%N ->
  firstn (N.to_nat n) a = firstn (N.to_nat n) a' ->
  firstn (N.to_nat n) b = firstn (N.to_nat n) b' ->
  simsimd_serial_b8_hamming a b n = simsimd_serial_b8_hamming a' b' n /\
  simsimd_serial_b8_jaccard a b n = simsimd_serial_b8_jaccard a' b' n /\
  simsimd_neon_b8_hamming a b n = simsimd_neon_b8_hamming a' b' n /\
  simsimd_neon_b8_jaccard a b n = simsimd_neon_b8_jaccard a' b' n /\
  simsimd_sve_b8_hamming svcntb a b n = simsimd_sve_b8_hamming svcntb a' b' n /\
  simsimd_sve_b8_jaccard svcntb a b n = simsimd_sve_b8_jaccard svcntb a' b' n /\
  simsimd_avx512_b8_hamming a b n = simsimd_avx512_b8_hamming a' b' n /\
  simsimd_avx512_b8_jaccard a b n = simsimd_avx512_b8_jaccard a' b' n.
Proof.
  intros svcntb a b a' b' n Hvl H H' Hn Ea Eb.
  assert (T : forall op, total op a b n = total op a' b' n).
  { intros op. unfold total. rewrite Ea, Eb. reflexivity. }
  rewrite (serial_hamming_closed a b n H), (serial_hamming_closed a' b' n H').
  rewrite (serial_jaccard_closed a b n H), (serial_jaccard_closed a' b' n H').
  rewrite (neon_hamming_closed a b n H), (neon_hamming_closed a' b' n H') by lia.
  rewrite (neon_jaccard_closed a b n H), (neon_jaccard_closed a' b' n H') by lia.
  rewrite (sve_hamming_closed svcntb Hvl a b n H Hn).
  rewrite (sve_hamming_closed svcntb Hvl a' b' n H' Hn).
  rewrite (sve_jaccard_closed svcntb Hvl a b n H Hn).
  rewrite (sve_jaccard_closed svcntb Hvl a' b' n H' Hn).
  rewrite (avx512_hamming_closed a b n H), (avx512_hamming_closed a' b' n H').
  rewrite (avx512_jaccard_closed a b n H), (avx512_jaccard_closed a' b' n H').
  rewrite !T. repeat split.
Qed.

Lemma binary_kernels_use_prefix_only_witness :
  simsimd_serial_b8_hamming [xff; x00; x0f] [x01; x00; xf0] 3 =
    simsimd_serial_b8_hamming [xff; x00; x0f; xaa; xbb] [x01; x00; xf0; x11] 3 /\
  simsimd_serial_b8_jaccard [xff; x00; x0f] [x01; x00; xf0] 3 =
    simsimd_serial_b8_jaccard [xff; x00; x0f; xaa; xbb] [x01; x00; xf0; x11] 3 /\
  simsimd_neon_b8_hamming [xff; x00; x0f] [x01; x00; xf0] 3 =
    simsimd_neon_b8_hamming [xff; x00; x0f; xaa; xbb] [x01; x00; xf0; x11] 3 /\
  simsimd_neon_b8_jaccard [xff; x00; x0f] [x01; x00; xf0] 3 =
    simsimd_neon_b8_jaccard [xff; x00; x0f; xaa; xbb] [x01; x00; xf0; x11] 3 /\
  simsimd_sve_b8_hamming 16 [xff; x00; x0f] [x01; x00; xf0] 3 =
    simsimd_sve_b8_hamming 16 [xff; x00; x0f; xaa; xbb] [x01; x00; xf0; x11] 3 /\
  simsimd_sve_b8_jaccard 16 [xff; x00; x0f] [x01; x00; xf0] 3 =
    simsimd_sve_b8_jaccard 16 [xff; x00; x0f; xaa; xbb] [x01; x00; xf0; x11] 3 /\
  simsimd_avx512_b8_hamming [xff; x00; x0f] [x01; x00; xf0] 3 =
    simsimd_avx512_b8_hamming [xff; x00; x0f; xaa; xbb] [x01; x00; xf0; x11] 3 /\
  simsimd_avx512_b8_jaccard [xff; x00; x0f] [x01; x00; xf0] 3 =
    simsimd_avx512_b8_jaccard [xff; x00; x0f; xaa; xbb] [x01; x00; xf0; x11] 3.
Proof.
  apply (binary_kernels_use_prefix_only 16
           [xff; x00; x0f] [x01; x00; xf0] [xff; x00; x0f; xaa; xbb] [x01; x00; xf0; x11] 3).
  - lia.
  - unfold readable. cbn [length]. lia.
  - unfold readable. cbn [length]. lia.
  - lia.
  - reflexivity.
  - reflexivity.
Defined.

(** *** Bit counts of XOR, AND and OR *)




















(** *** SVE lengths whose low 32 bits are zero *)

Lemma sve_jaccard_loop_no_lane svcntb : (0 < svcntb <= 256)%N ->
  forall fuel a b n i acc1 acc2,
  u32 n = 0%N -> (n + 256 < 2 ^ 64)%N -> (i <= n)%N ->
  (N.to_nat (n - i) < fuel)%nat -> i32 acc1 = acc1 -> i32 acc2 = acc2 ->
  sve_jaccard_loop svcntb fuel a b n i acc1 acc2 = Some (acc1, acc2).
Proof.
  intros Hvl.
  induction fuel as [|fuel IH]; intros a b n i acc1 acc2 Hn Hmax Hi Hf Hacc1 Hacc2; [lia|].
  cbn [sve_jaccard_loop]. unfold svld1_u8, svwhilelt_b8.
  rewrite Hn, whilelt_shape. replace (N.to_nat (0 - u32 i)) with 0%nat by lia.
  rewrite Nat.min_0_r, Nat.sub_0_r. cbn [repeat app].
  rewrite !svld1_lanes_inactive. cbn [bind].
  unfold svand_u8_m, svorr_u8_m. rewrite !zero_lanes_count by exact _.
  rewrite !Z.add_0_r, Hacc1, Hacc2, (size_t_small (i + svcntb)) by lia.
  destruct (N.ltb_spec (i + svcntb) n) as [Hlt|Hge]; [|reflexivity].
  apply IH; (assumption || lia).
Qed.

(** X10: the SVE kernels build their predicate from the index and the
    length cast to [unsigned int]. At a length whose low 32 bits are zero
    (2^32 words, 2^33, ...) no lane is ever active: both kernels read nothing
    and return 0, whatever the operands hold. *)
Theorem sve_length_low_bits_zero : forall svcntb a b n,
  (0 < svcntb <= 256)%N -> u32 n = 0%N -> (n + 256 < 2 ^ 64)%N ->
  simsimd_sve_b8_hamming svcntb a b n = Some (f32_of_int 0) /\
  simsimd_sve_b8_jaccard svcntb a b n = Some (f32_of_int 0).
Proof.
  intros svcntb a b n Hvl Hlow Hmax.
  unfold simsimd_sve_b8_hamming, simsimd_sve_b8_jaccard.
  rewrite (sve_hamming_loop_no_lane svcntb Hvl), (sve_jaccard_loop_no_lane svcntb Hvl);
    (reflexivity || assumption || lia || split; reflexivity).
Qed.

Lemma sve_length_low_bits_zero_witness :
  simsimd_sve_b8_hamming 16 [xff] [x00] (2 ^ 32) = Some (f32_of_int 0) /\
  simsimd_sve_b8_jaccard 16 [xff] [x00] (2 ^ 32) = Some (f32_of_int 0).
Proof.
  apply (sve_length_low_bits_zero 16 [xff] [x00] (2 ^ 32)).
  - lia.
  - vm_compute. reflexivity.
  - lia.
Defined.

(** ** Further properties of the int8 AVX2 kernels *)

Lemma i32_congr x y : x mod 2 ^ 32 = y mod 2 ^ 32 -> i32 x = i32 y.
Proof.
  intros E. unfold i32. f_equal.
  rewrite <- (Z.add_mod_idemp_l x), <- (Z.add_mod_idemp_l y), E by lia. reflexivity.
Qed.

Lemma unpack_app w c1 : 0 <= w -> forall c2 v,
  unpack w (c1 + c2) v = unpack w c1 v ++ unpack w c2 (v / 2 ^ (w * Z.of_nat c1)).
Proof.
  intros Hw. induction c1 as [|c1 IH]; intros c2 v.
  - cbn [Nat.add unpack app Z.of_nat]. rewrite Z.mul_0_r, Z.pow_0_r, Z.div_1_r. reflexivity.
  - cbn [Nat.add unpack app]. rewrite IH. do 3 f_equal.
    assert (0 < 2 ^ w) by (apply Z.pow_pos_nonneg; lia).
    assert (0 < 2 ^ (w * Z.of_nat c1)) by (apply Z.pow_pos_nonneg; nia).
    rewrite Z.div_div by lia. rewrite <- Z.pow_add_r by nia. do 2 f_equal. lia.
Qed.

Lemma unpack_mod w c : 0 < w -> forall k v, (c <= k)%nat ->
  unpack w c (v mod 2 ^ (w * Z.of_nat k)) = unpack w c v.
Proof.
  intros Hw. induction c as [|c IH]; intros k v Hk; [reflexivity|].
  destruct k as [|k]; [lia|]. cbn [unpack].
  assert (0 < 2 ^ w) by (apply Z.pow_pos_nonneg; lia).
  assert (0 < 2 ^ (w * Z.of_nat k)) by (apply Z.pow_pos_nonneg; nia).
  replace (w * Z.of_nat (S k)) with (w + w * Z.of_nat k) by lia.
  rewrite Z.pow_add_r, Z.rem_mul_r by nia.
  replace ((v mod 2 ^ w + 2 ^ w * ((v / 2 ^ w) mod 2 ^ (w * Z.of_nat k))) mod 2 ^ w)
    with (v mod 2 ^ w)
    by (rewrite (Z.mul_comm (2 ^ w)), Z.mod_add, Z.mod_mod by lia; reflexivity).
  replace ((v mod 2 ^ w + 2 ^ w * ((v / 2 ^ w) mod 2 ^ (w * Z.of_nat k))) / 2 ^ w)
    with ((v / 2 ^ w) mod 2 ^ (w * Z.of_nat k))
    by (rewrite (Z.mul_comm (2 ^ w)), Z.div_add, (Z.div_small (v mod 2 ^ w))
          by (try apply Z.mod_pos_bound; lia);
        reflexivity).
  rewrite IH by lia. reflexivity.
Qed.

(** The two 128-bit halves of a register hold its 32-bit lanes 0 to 3 and
    4 to 7. *)
Lemma extracti128_lanes v :
  unpack 32 4 (_mm256_extracti128_si256 v 0) ++ unpack 32 4 (_mm256_extracti128_si256 v 1) =
    unpack 32 8 v.
Proof.
  unfold _mm256_extracti128_si256.
  change (unpack 128 2 v) with [v mod 2 ^ 128; (v / 2 ^ 128) mod 2 ^ 128]. cbn [nth].
  change (2 ^ 128) with (2 ^ (32 * Z.of_nat 4)).
  rewrite !(unpack_mod 32 4 eq_refl 4) by lia.
  change 8%nat with (4 + 4)%nat. rewrite (unpack_app 32 4) by lia. reflexivity.
Qed.

Lemma unpack_4 w v : exists x0 x1 x2 x3, unpack w 4 v = [x0; x1; x2; x3].
Proof. cbn [unpack]. do 4 eexists. reflexivity. Qed.

(** The reduction of four lanes: [_mm_hadd_epi32] twice, then lane 0. *)
Lemma hadd_twice_lane0 p p0 p1 p2 p3 : unpack 32 4 p = [p0; p1; p2; p3] ->
  _mm_extract_epi32 (_mm_hadd_epi32 (_mm_hadd_epi32 p p) p) 0 = i32 (p0 + p1 + p2 + p3).
Proof.
  intros Hp. unfold _mm_extract_epi32, _mm_hadd_epi32. rewrite Hp.
  pose proof (unpack_pack 32 eq_refl [p0 + p1; p2 + p3; p0 + p1; p2 + p3]) as U1.
  cbn [length map] in U1. rewrite U1.
  pose proof (unpack_pack 32 eq_refl
                [(p0 + p1) mod 2 ^ 32 + (p2 + p3) mod 2 ^ 32;
                 (p0 + p1) mod 2 ^ 32 + (p2 + p3) mod 2 ^ 32; p0 + p1; p2 + p3]) as U2.
  cbn [length map] in U2. rewrite U2. cbn [nth].
  apply i32_congr. rewrite Z.mod_mod, <- Z.add_mod by lia. f_equal. lia.
Qed.

(** X11: the horizontal reduction written out in both AVX2 kernels (add the
    two 128-bit halves, [_mm_hadd_epi32] twice, extract lane 0) returns, as
    an [int], the sum of the eight 32-bit lanes of the accumulator. *)
Theorem horizontal_sum_is_lane_sum : forall v,
  horizontal_sum v = i32 (sum (unpack 32 8 v)).
Proof.
  intros v. unfold horizontal_sum. cbv zeta.
  rewrite <- extracti128_lanes, sum_app.
  destruct (unpack_4 32 (_mm256_extracti128_si256 v 0)) as [a0 [a1 [a2 [a3 Ea]]]].
  destruct (unpack_4 32 (_mm256_extracti128_si256 v 1)) as [b0 [b1 [b2 [b3 Eb]]]].
  assert (Ep : unpack 32 4 (_mm_add_epi32 (_mm256_extracti128_si256 v 0)
                              (_mm256_extracti128_si256 v 1)) =
               [(a0 + b0) mod 2 ^ 32; (a1 + b1) mod 2 ^ 32;
                (a2 + b2) mod 2 ^ 32; (a3 + b3) mod 2 ^ 32]).
  { unfold _mm_add_epi32. rewrite Ea, Eb. cbn [zip_with].
    exact (unpack_pack 32 eq_refl [a0 + b0; a1 + b1; a2 + b2; a3 + b3]). }
  rewrite (hadd_twice_lane0 _ _ _ _ _ Ep), Ea, Eb. cbn [sum fold_right].
  apply i32_congr. Z.div_mod_to_equations. lia.
Qed.

(** X12: an operand is at squared distance 0 from itself: for every
    readable element count [simsimd_avx2_i8_l2sq (a, a, d)] returns 0, through
    the vectorised loop as well as through the scalar one. *)
Theorem avx2_i8_l2sq_identical_operands : forall a d,
  (d <= N.of_nat (length a))%N -> (d + 32 < 2 ^ 64)%N ->
  simsimd_avx2_i8_l2sq a a d = Some (f32_of_int 0).
Proof. exact avx2_i8_l2sq_diag. Qed.

Lemma avx2_i8_l2sq_identical_operands_witness :
  simsimd_avx2_i8_l2sq (repeat x85 70) (repeat x85 70) 70 = Some (f32_of_int 0).
Proof.
  apply (avx2_i8_l2sq_identical_operands (repeat x85 70) 70).
  - cbn [repeat length]. lia.
  - lia.
Defined.

Lemma l2sq_exact_comm : forall a b, l2sq_exact a b = l2sq_exact b a.
Proof.
  induction a as [|x a IH]; intros [|y b]; cbn [l2sq_exact]; try reflexivity.
  rewrite IH. lia.
Qed.


(** X13: below 32 elements only the scalar loop of
    [simsimd_avx2_i8_l2sq] runs: the kernel returns the exact sum of the
    squared differences of the signed elements, which is non-negative and the
    same for [(a, b)] and [(b, a)]. *)
Theorem avx2_i8_l2sq_below_one_chunk : forall a b d,
  readable a b d -> (d < 32)%N ->
  simsimd_avx2_i8_l2sq a b d =
    Some (f32_of_int (l2sq_exact (firstn (N.to_nat d) a) (firstn (N.to_nat d) b))) /\
  simsimd_avx2_i8_l2sq b a d = simsimd_avx2_i8_l2sq a b d /\
  0 <= l2sq_exact (firstn (N.to_nat d) a) (firstn (N.to_nat d) b).
Proof.
  intros a b d H Hd. unfold simsimd_avx2_i8_l2sq.
  rewrite (avx2_i8_l2sq_short a b d H Hd).
  rewrite (avx2_i8_l2sq_short b a d (readable_sym a b d H) Hd).
  rewrite (l2sq_exact_comm (firstn (N.to_nat d) b)).
  repeat split. apply l2sq_exact_range.
Qed.

Lemma avx2_i8_l2sq_below_one_chunk_witness :
  simsimd_avx2_i8_l2sq [x01; x02; x03; xff] [x04; x02; x03; x01] 4 =
    Some (f32_of_int (l2sq_exact (firstn (N.to_nat 4) [x01; x02; x03; xff])
                        (firstn (N.to_nat 4) [x04; x02; x03; x01]))) /\
  simsimd_avx2_i8_l2sq [x04; x02; x03; x01] [x01; x02; x03; xff] 4 =
    simsimd_avx2_i8_l2sq [x01; x02; x03; xff] [x04; x02; x03; x01] 4 /\
  0 <= l2sq_exact (firstn (N.to_nat 4) [x01; x02; x03; xff])
         (firstn (N.to_nat 4) [x04; x02; x03; x01]).
Proof.
  apply (avx2_i8_l2sq_below_one_chunk [x01; x02; x03; xff] [x04; x02; x03; x01] 4).
  - unfold readable. cbn [length]. lia.
  - lia.
Defined.



(** *** Every readable element count *)

Lemma window_firstn (a : list byte) d i k : (N.to_nat i + k <= N.to_nat d)%nat ->
  window (firstn (N.to_nat d) a) i k = window a i k.
Proof.
  intros H. unfold window.
  rewrite skipn_firstn_comm, firstn_firstn. f_equal. lia.
Qed.

Lemma horizontal_sum_i32 v : i32 (horizontal_sum v) = horizontal_sum v.
Proof. rewrite horizontal_sum_is_lane_sum. apply i32_idem. Qed.

Lemma chunk_index d i k :
  (i = 32 * k)%N -> (i <= d)%N -> (d < i + 32)%N ->
  i = (32 * (d / 32))%N /\ N.to_nat d = (N.to_nat i + N.to_nat (d mod 32))%nat.
Proof.
  intros Ei Hle Hlt. subst i.
  assert (Q : (d / 32 = k)%N).
  { symmetry. apply (N.div_unique d 32 k (d - 32 * k)); lia. }
  pose proof (N.div_mod d 32 ltac:(lia)) as E. rewrite Q in *. lia.
Qed.

(** The chunk loop of [simsimd_avx2_i8_l2sq] stops at the last multiple of
    32 within [d], and runs the same on the operands cut to [d] elements. *)
Lemma l2sq_chunks_run : forall fuel a b d k v,
  (N.to_nat d <= length a)%nat -> (N.to_nat d <= length b)%nat ->
  (d + 32 < 2 ^ 64)%N -> (32 * k <= d)%N ->
  (N.to_nat (d - 32 * k) < 32 * S fuel)%nat ->
  exists k' v',
    l2sq_chunks fuel a b d (32 * k) v = Some ((32 * k')%N, v') /\
    l2sq_chunks fuel (firstn (N.to_nat d) a) (firstn (N.to_nat d) b) d (32 * k) v =
      Some ((32 * k')%N, v') /\
    (32 * k' <= d)%N /\ (d < 32 * k' + 32)%N.
Proof.
  induction fuel as [|fuel IH]; intros a b d k v Ha Hb Hmax Hk Hf;
    cbn [l2sq_chunks]; rewrite (size_t_small (32 * k + 31)) by lia;
    destruct (N.ltb_spec (32 * k + 31) d) as [Hlt|Hge];
    try (exists k, v; repeat split; lia).
  unfold _mm256_loadu_si256.
  rewrite !load_bytes_window by (rewrite ?length_firstn; lia).
  rewrite !window_firstn by lia. cbn [bind].
  rewrite (size_t_small (32 * k + 32)) by lia.
  replace (32 * k + 32)%N with (32 * (k + 1))%N by lia.
  apply IH; lia.
Qed.

(** X15: for every readable element count [simsimd_avx2_i8_l2sq] returns a
    result, reading its operands within the first [d] elements only. The
    vectorised loop covers the [32 * (d / 32)] leading elements; the result
    is the [int] sum of the eight 32-bit lanes it leaves and of the exact
    squared differences of the [d mod 32] elements that follow. *)
Theorem avx2_i8_l2sq_chunks_and_tail : forall a b d,
  readable a b d -> (d + 32 < 2 ^ 64)%N ->
  exists d2_vec,
    l2sq_chunks (N.to_nat (d / 32)) a b d 0 _mm256_setzero_si256 =
      Some ((32 * (d / 32))%N, d2_vec) /\
    simsimd_avx2_i8_l2sq a b d =
      Some (f32_of_int
              (i32 (sum (unpack 32 8 d2_vec) +
                    l2sq_exact (window a (32 * (d / 32)) (N.to_nat (d mod 32)))
                               (window b (32 * (d / 32)) (N.to_nat (d mod 32)))))) /\
    simsimd_avx2_i8_l2sq (firstn (N.to_nat d) a) (firstn (N.to_nat d) b) d =
      simsimd_avx2_i8_l2sq a b d.
Proof.
  intros a b d H Hmax. destruct (readable_lengths a b d H) as [Ha Hb].
  destruct (l2sq_chunks_run (N.to_nat (d / 32)) a b d 0 _mm256_setzero_si256
              Ha Hb Hmax ltac:(lia))
    as [k' [v' [E [E' [Hle Hlt]]]]].
  { change (32 * 0)%N with 0%N. rewrite N.sub_0_r. exact (chunk_fuel d 32 eq_refl). }
  change (32 * 0)%N with 0%N in E, E'.
  destruct (chunk_index d (32 * k') k' eq_refl Hle Hlt) as [Ei Hd].
  rewrite Ei in E, E'. exists v'. split; [exact E|].
  unfold simsimd_avx2_i8_l2sq, avx2_i8_l2sq_int. rewrite E, E'. cbn [bind fst snd].
  rewrite !(l2sq_tail_spec (N.to_nat (d mod 32)))
    by (rewrite ?length_firstn; try apply horizontal_sum_i32; lia).
  rewrite !window_firstn by lia.
  rewrite horizontal_sum_is_lane_sum, i32_add_l. split; reflexivity.
Qed.

Lemma avx2_i8_l2sq_chunks_and_tail_witness :
  exists d2_vec,
    l2sq_chunks (N.to_nat (35 / 32)) (repeat x03 40) (repeat xff 40) 35 0
      _mm256_setzero_si256 = Some ((32 * (35 / 32))%N, d2_vec) /\
    simsimd_avx2_i8_l2sq (repeat x03 40) (repeat xff 40) 35 =
      Some (f32_of_int
              (i32 (sum (unpack 32 8 d2_vec) +
                    l2sq_exact
                      (window (repeat x03 40) (32 * (35 / 32)) (N.to_nat (35 mod 32)))
                      (window (repeat xff 40) (32 * (35 / 32)) (N.to_nat (35 mod 32)))))) /\
    simsimd_avx2_i8_l2sq (firstn (N.to_nat 35) (repeat x03 40))
      (firstn (N.to_nat 35) (repeat xff 40)) 35 =
      simsimd_avx2_i8_l2sq (repeat x03 40) (repeat xff 40) 35.
Proof.
  apply (avx2_i8_l2sq_chunks_and_tail (repeat x03 40) (repeat xff 40) 35).
  - unfold readable. cbn [repeat length]. lia.
  - lia.
Defined.

Lemma cos_chunks_run : forall fuel a b d k v1 v2 v3,
  (N.to_nat d <= length a)%nat -> (N.to_nat d <= length b)%nat ->
  (d + 32 < 2 ^ 64)%N -> (32 * k <= d)%N ->
  (N.to_nat (d - 32 * k) < 32 * S fuel)%nat ->
  exists k' w1 w2 w3,
    cos_chunks fuel a b d (32 * k) v1 v2 v3 = Some ((32 * k')%N, (w1, w2, w3)) /\
    cos_chunks fuel (firstn (N.to_nat d) a) (firstn (N.to_nat d) b) d (32 * k) v1 v2 v3 =
      Some ((32 * k')%N, (w1, w2, w3)) /\
    (32 * k' <= d)%N /\ (d < 32 * k' + 32)%N.
Proof.
  induction fuel as [|fuel IH]; intros a b d k v1 v2 v3 Ha Hb Hmax Hk Hf;
    cbn [cos_chunks]; rewrite (size_t_small (32 * k + 31)) by lia;
    destruct (N.ltb_spec (32 * k + 31) d) as [Hlt|Hge];
    try (exists k, v1, v2, v3; repeat split; lia).
  unfold _mm256_loadu_si256.
  rewrite !load_bytes_window by (rewrite ?length_firstn; lia).
  rewrite !window_firstn by lia. cbn [bind].
  rewrite (size_t_small (32 * k + 32)) by lia.
  replace (32 * k + 32)%N with (32 * (k + 1))%N by lia.
  apply IH; lia.
Qed.

(** X16: for every readable element count [simsimd_avx2_i8_cos] and
    [simsimd_avx2_i8_ip] return a result, reading their operands within the
    first [d] elements only. Each of the three [int] sums is the sum of the
    eight 32-bit lanes the vectorised loop leaves after [32 * (d / 32)]
    elements and of the exact products of the [d mod 32] elements that
    follow. *)
Theorem avx2_i8_cos_chunks_and_tail : forall rsqrt a b d,
  readable a b d -> (d + 32 < 2 ^ 64)%N ->
  exists ab_vec a2_vec b2_vec,
    cos_chunks (N.to_nat (d / 32)) a b d 0
      _mm256_setzero_si256 _mm256_setzero_si256 _mm256_setzero_si256 =
      Some ((32 * (d / 32))%N, (ab_vec, a2_vec, b2_vec)) /\
    avx2_i8_cos_sums a b d =
      Some (i32 (sum (unpack 32 8 ab_vec) +
                 dot (window a (32 * (d / 32)) (N.to_nat (d mod 32)))
                     (window b (32 * (d / 32)) (N.to_nat (d mod 32)))),
            i32 (sum (unpack 32 8 a2_vec) +
                 dot (window a (32 * (d / 32)) (N.to_nat (d mod 32)))
                     (window a (32 * (d / 32)) (N.to_nat (d mod 32)))),
            i32 (sum (unpack 32 8 b2_vec) +
                 dot (window b (32 * (d / 32)) (N.to_nat (d mod 32)))
                     (window b (32 * (d / 32)) (N.to_nat (d mod 32))))) /\
    (exists r, simsimd_avx2_i8_cos rsqrt a b d = Some r /\
               simsimd_avx2_i8_ip rsqrt a b d = Some r /\
               simsimd_avx2_i8_cos rsqrt (firstn (N.to_nat d) a) (firstn (N.to_nat d) b) d =
                 Some r).
Proof.
  intros rsqrt a b d H Hmax. destruct (readable_lengths a b d H) as [Ha Hb].
  destruct (cos_chunks_run (N.to_nat (d / 32)) a b d 0
              _mm256_setzero_si256 _mm256_setzero_si256 _mm256_setzero_si256
              Ha Hb Hmax ltac:(lia))
    as [k' [w1 [w2 [w3 [E [E' [Hle Hlt]]]]]]].
  { change (32 * 0)%N with 0%N. rewrite N.sub_0_r. exact (chunk_fuel d 32 eq_refl). }
  change (32 * 0)%N with 0%N in E, E'.
  destruct (chunk_index d (32 * k') k' eq_refl Hle Hlt) as [Ei Hd].
  rewrite Ei in E, E'. exists w1, w2, w3. split; [exact E|].
  assert (S1 : forall a' b',
             window a' (32 * (d / 32)) (N.to_nat (d mod 32)) =
               window a (32 * (d / 32)) (N.to_nat (d mod 32)) ->
             window b' (32 * (d / 32)) (N.to_nat (d mod 32)) =
               window b (32 * (d / 32)) (N.to_nat (d mod 32)) ->
             (N.to_nat d <= length a')%nat -> (N.to_nat d <= length b')%nat ->
             cos_tail (N.to_nat d) a' b' d (32 * (d / 32))
               (horizontal_sum w1) (horizontal_sum w2) (horizontal_sum w3) =
             Some (i32 (sum (unpack 32 8 w1) +
                        dot (window a (32 * (d / 32)) (N.to_nat (d mod 32)))
                            (window b (32 * (d / 32)) (N.to_nat (d mod 32)))),
                   i32 (sum (unpack 32 8 w2) +
                        dot (window a (32 * (d / 32)) (N.to_nat (d mod 32)))
                            (window a (32 * (d / 32)) (N.to_nat (d mod 32)))),
                   i32 (sum (unpack 32 8 w3) +
                        dot (window b (32 * (d / 32)) (N.to_nat (d mod 32)))
                            (window b (32 * (d / 32)) (N.to_nat (d mod 32)))))).
  { intros a' b' Wa Wb La Lb.
    rewrite (cos_tail_spec (N.to_nat (d mod 32)))
      by (try apply horizontal_sum_i32; lia).
    rewrite Wa, Wb, !horizontal_sum_is_lane_sum, !i32_add_l. reflexivity. }
  unfold simsimd_avx2_i8_ip, simsimd_avx2_i8_cos, avx2_i8_cos_sums.
  rewrite E, E'. cbn [bind].
  rewrite (S1 a b eq_refl eq_refl Ha Hb).
  rewrite (S1 (firstn (N.to_nat d) a) (firstn (N.to_nat d) b))
    by (rewrite ?length_firstn; try apply window_firstn; lia).
  split; [reflexivity|]. eexists. repeat split.
Qed.

Lemma avx2_i8_cos_chunks_and_tail_witness :
  exists ab_vec a2_vec b2_vec,
    cos_chunks (N.to_nat (35 / 32)) (repeat x03 40) (repeat xff 40) 35 0
      _mm256_setzero_si256 _mm256_setzero_si256 _mm256_setzero_si256 =
      Some ((32 * (35 / 32))%N, (ab_vec, a2_vec, b2_vec)) /\
    avx2_i8_cos_sums (repeat x03 40) (repeat xff 40) 35 =
      Some (i32 (sum (unpack 32 8 ab_vec) +
                 dot (window (repeat x03 40) (32 * (35 / 32)) (N.to_nat (35 mod 32)))
                     (window (repeat xff 40) (32 * (35 / 32)) (N.to_nat (35 mod 32)))),
            i32 (sum (unpack 32 8 a2_vec) +
                 dot (window (repeat x03 40) (32 * (35 / 32)) (N.to_nat (35 mod 32)))
                     (window (repeat x03 40) (32 * (35 / 32)) (N.to_nat (35 mod 32)))),
            i32 (sum (unpack 32 8 b2_vec) +
                 dot (window (repeat xff 40) (32 * (35 / 32)) (N.to_nat (35 mod 32)))
                     (window (repeat xff 40) (32 * (35 / 32)) (N.to_nat (35 mod 32))))) /\
    (exists r, simsimd_avx2_i8_cos (fun x => x) (repeat x03 40) (repeat xff 40) 35 = Some r /\
               simsimd_avx2_i8_ip (fun x => x) (repeat x03 40) (repeat xff 40) 35 = Some r /\
               simsimd_avx2_i8_cos (fun x => x) (firstn (N.to_nat 35) (repeat x03 40))
                 (firstn (N.to_nat 35) (repeat xff 40)) 35 = Some r).
Proof.
  apply (avx2_i8_cos_chunks_and_tail (fun x => x) (repeat x03 40) (repeat xff 40) 35).
  - unfold readable. cbn [repeat length]. lia.
  - lia.
Defined.

Lemma total_lxor_diag a n : total Z.lxor a a n = 0.
Proof. unfold total. apply popcount_total_lxor_diag. Qed.

(** X17: the wide-vector Hamming kernels are symmetric and vanish on
    identical operands, as the serial one: at every readable length below
    [2^32] the NEON, SVE and AVX-512 kernels return the same value for
    [(a, b)] and [(b, a)], and 0 for [(a, a)]. *)
Theorem wide_hamming_symmetry_identity : forall svcntb a b n,
  (0 < svcntb <= 256)%N -> readable a b n -> (n < 2 ^ 32)%N ->
  simsimd_neon_b8_hamming a b n = simsimd_neon_b8_hamming b a n /\
  simsimd_sve_b8_hamming svcntb a b n = simsimd_sve_b8_hamming svcntb b a n /\
  simsimd_avx512_b8_hamming a b n = simsimd_avx512_b8_hamming b a n /\
  simsimd_neon_b8_hamming a a n = Some (f32_of_int 0) /\
  simsimd_sve_b8_hamming svcntb a a n = Some (f32_of_int 0) /\
  simsimd_avx512_b8_hamming a a n = Some (f32_of_int 0).
Proof.
  intros svcntb a b n Hvl H Hn.
  pose proof (readable_sym a b n H) as H'. pose proof (readable_diag a b n H) as D.
  rewrite (neon_hamming_closed a b n H), (neon_hamming_closed b a n H') by lia.
  rewrite (neon_hamming_closed a a n D) by lia.
  rewrite (sve_hamming_closed svcntb Hvl a b n H Hn).
  rewrite (sve_hamming_closed svcntb Hvl b a n H' Hn).
  rewrite (sve_hamming_closed svcntb Hvl a a n D Hn).
  rewrite (avx512_hamming_closed a b n H), (avx512_hamming_closed b a n H').
  rewrite (avx512_hamming_closed a a n D).
  rewrite (total_comm Z.lxor a b n Z.lxor_comm).
  rewrite !total_lxor_diag. repeat split.
Qed.

Lemma wide_hamming_symmetry_identity_witness :
  simsimd_neon_b8_hamming (repeat xff 37) (repeat x0f 37) 37 =
    simsimd_neon_b8_hamming (repeat x0f 37) (repeat xff 37) 37 /\
  simsimd_sve_b8_hamming 16 (repeat xff 37) (repeat x0f 37) 37 =
    simsimd_sve_b8_hamming 16 (repeat x0f 37) (repeat xff 37) 37 /\
  simsimd_avx512_b8_hamming (repeat xff 37) (repeat x0f 37) 37 =
    simsimd_avx512_b8_hamming (repeat x0f 37) (repeat xff 37) 37 /\
  simsimd_neon_b8_hamming (repeat xff 37) (repeat xff 37) 37 = Some (f32_of_int 0) /\
  simsimd_sve_b8_hamming 16 (repeat xff 37) (repeat xff 37) 37 = Some (f32_of_int 0) /\
  simsimd_avx512_b8_hamming (repeat xff 37) (repeat xff 37) 37 = Some (f32_of_int 0).
Proof.
  apply (wide_hamming_symmetry_identity 16 (repeat xff 37) (repeat x0f 37) 37).
  - lia.
  - unfold readable. cbn [repeat length]. lia.
  - lia.
Defined.
